(** * fileglob: glob patterns compiled to regular expressions, and sets of them

    A shallow embedding of [lib/fileglob.js] together with the part of
    the JavaScript runtime it relies on: [new RegExp(src)], [re.test(s)],
    [Array.prototype.filter/some/map] and [instanceof].

    Layout:
    - [Outcome]   : completions of JavaScript calls (return / throw);
    - [RegExp]    : pattern parser and backtracking matcher;
    - [JsArray]   : the array methods the library calls;
    - [Fileglob]  : the library itself, function by function;
    - [Glob]      : the tokens of a glob and their documented meaning;
    - the theorems: the matcher against its relational semantics, the
      scan against the tokens, the parser on the text of the tokens, and
      from these the properties of the library.

    Strings are sequences of 8-bit characters ([string], [list ascii]):
    the code units below 256 of a JavaScript string.  Nothing in the
    library or in the fragment of regular expressions below looks at a
    character otherwise than by comparing it with another one. *)

From Stdlib Require Import List Bool Arith Lia Ascii String Permutation.
Import ListNotations.

Set Implicit Arguments.

Local Open Scope char_scope.
Local Open Scope list_scope.

(** ** Completions *)

Module Outcome.

(** The two exceptions the library can raise, both coming from the
    runtime: [new RegExp] on an ill-formed pattern, and a property read
    on [undefined]. *)
Inductive exn : Type :=
| SyntaxError
| TypeError.

(** [Unmodelled] marks the inputs on which this development gives no
    answer (regular-expression syntax outside the fragment of
    [RegExp.step], arrays used as a glob).  It is neither a return nor a
    throw, and no theorem below draws a conclusion from it. *)
Inductive outcome (A : Type) : Type :=
| Returns (a : A)
| Throws (e : exn)
| Unmodelled.

Arguments Returns {A} a.
Arguments Throws {A} e.
Arguments Unmodelled {A}.

Definition bind {A B : Type} (m : outcome A) (k : A -> outcome B) : outcome B :=
  match m with
  | Returns a => k a
  | Throws e => Throws e
  | Unmodelled => Unmodelled
  end.

(** Left-to-right evaluation of a callback over an array, stopping at
    the first abrupt completion. *)
Fixpoint mapM {A B : Type} (f : A -> outcome B) (l : list A) : outcome (list B) :=
  match l with
  | [] => Returns []
  | x :: l' =>
      bind (f x) (fun y => bind (mapM f l') (fun ys => Returns (y :: ys)))
  end.

End Outcome.
Import Outcome.

Notation "x <- m ;; k" := (bind m (fun x => k))
  (at level 61, m at next level, right associativity).

(** ** Regular expressions (ECMAScript, no flags)

    The syntax is the one of the language definition with its annex for
    web browsers, which Node follows: outside a class, a closing bracket
    or brace that nothing opens is a pattern character. *)

Module RegExp.

(** *** Syntax trees *)

(** A member of a character class: a range of code units, a single
    character being the range from itself to itself. *)
Record ClassRange : Type := CRange { lo : ascii; hi : ascii }.

Inductive regex : Type :=
| Empty                                   (* the empty alternative *)
| Char (c : ascii)                        (* pattern character, identity escape *)
| Dot                                     (* . *)
| Class (invert : bool) (rs : list ClassRange)   (* [...] and [^...] *)
| AssertStart                             (* ^ *)
| AssertEnd                               (* $ *)
| Seq (r1 r2 : regex)                     (* Alternative Term *)
| Alt (r1 r2 : regex)                     (* Alternative | Disjunction *)
| Group (r : regex)                       (* ( Disjunction ) *)
| Quant (min : nat) (max : option nat) (greedy : bool) (r : regex).

(** *** Parser

    One pass over the pattern text, one character at a time.  A frame
    holds the disjunction being read at one nesting depth: the
    alternatives already closed by [|], the terms of the current
    alternative, and the last atom while it can still take a
    quantifier. *)

Inductive pending : Type :=
| PNone                                   (* nothing to repeat *)
| PAtom (r : regex)                       (* an atom, not yet quantified *)
| PQuant (min : nat) (max : option nat) (r : regex).  (* greedy so far; [?] makes it lazy *)

Record frame : Type := Frame {
  alts : option regex;
  cur : regex;
  pend : pending
}.

Definition frame0 : frame := Frame None Empty PNone.

Definition commit (f : frame) : regex :=
  match pend f with
  | PNone => cur f
  | PAtom r => Seq (cur f) r
  | PQuant mn mx r => Seq (cur f) (Quant mn mx true r)
  end.

Definition frame_regex (f : frame) : regex :=
  match alts f with
  | None => commit f
  | Some a => Alt a (commit f)
  end.

Inductive mode : Type :=
| MNormal
| MEscape                                 (* after a backslash *)
| MGroupOpen                              (* just after ( *)
| MClassStart                             (* just after [ *)
| MClass (invert : bool) (rs : list ClassRange) (atom : option ascii) (dash : bool)
| MClassEscape (invert : bool) (rs : list ClassRange) (atom : option ascii) (dash : bool).

Record pstate : Type := PState {
  pmode : mode;
  top : frame;
  parents : list frame
}.

Definition pstate0 : pstate := PState MNormal frame0 [].

Definition code (c : ascii) : nat := nat_of_ascii c.

Definition between (a b : nat) (c : ascii) : bool :=
  ((a <=? code c) && (code c <=? b))%nat.

Definition is_digit : ascii -> bool := between 48 57.
Definition is_upper : ascii -> bool := between 65 90.
Definition is_lower : ascii -> bool := between 97 122.

(** A backslash followed by an ASCII character that is neither a letter
    nor a digit is an identity escape; the escapes of letters and digits
    (classes, control characters, back-references, ...) are outside the
    fragment. *)
Definition identity_escapable (c : ascii) : bool :=
  (code c <? 128)%nat && negb (is_digit c || is_upper c || is_lower c).

Definition push_atom (f : frame) (r : regex) : frame :=
  Frame (alts f) (commit f) (PAtom r).

Definition push_assertion (f : frame) (r : regex) : frame :=
  Frame (alts f) (Seq (commit f) r) PNone.

Definition close_alternative (f : frame) : frame :=
  Frame (Some (frame_regex f)) Empty PNone.

Definition quantify (f : frame) (mn : nat) (mx : option nat) : outcome frame :=
  match pend f with
  | PAtom r => Returns (Frame (alts f) (cur f) (PQuant mn mx r))
  | _ => Throws SyntaxError               (* nothing to repeat *)
  end.

Definition question (f : frame) : outcome frame :=
  match pend f with
  | PAtom r => Returns (Frame (alts f) (cur f) (PQuant 0 (Some 1) r))
  | PQuant mn mx r =>
      Returns (Frame (alts f) (Seq (cur f) (Quant mn mx false r)) PNone)
  | PNone => Throws SyntaxError           (* nothing to repeat *)
  end.

Definition step_normal (f : frame) (ps : list frame) (c : ascii) : outcome pstate :=
  if (c =? "\")%char then Returns (PState MEscape f ps)
  else if (c =? "(")%char then Returns (PState MGroupOpen frame0 (f :: ps))
  else if (c =? ")")%char then
    match ps with
    | [] => Throws SyntaxError            (* unmatched ) *)
    | p :: ps' => Returns (PState MNormal (push_atom p (Group (frame_regex f))) ps')
    end
  else if (c =? "[")%char then Returns (PState MClassStart f ps)
  else if (c =? "|")%char then Returns (PState MNormal (close_alternative f) ps)
  else if (c =? "*")%char then f' <- quantify f 0 None ;; Returns (PState MNormal f' ps)
  else if (c =? "+")%char then f' <- quantify f 1 None ;; Returns (PState MNormal f' ps)
  else if (c =? "?")%char then f' <- question f ;; Returns (PState MNormal f' ps)
  else if (c =? "^")%char then Returns (PState MNormal (push_assertion f AssertStart) ps)
  else if (c =? "$")%char then Returns (PState MNormal (push_assertion f AssertEnd) ps)
  else if (c =? ".")%char then Returns (PState MNormal (push_atom f Dot) ps)
  else if (c =? "{")%char then Unmodelled (* braced quantifiers *)
  else Returns (PState MNormal (push_atom f (Char c)) ps).

Definition single (c : ascii) : ClassRange := CRange c c.

(** The members of a class are read with one atom kept aside: [a-b] is a
    range when both ends are there ([atom] is the left end, [dash] says
    that the dash was read), and a dash without a right end is a member
    of its own. *)
Definition class_atom (invert : bool) (rs : list ClassRange) (atom : option ascii)
    (dash : bool) (c : ascii) : outcome mode :=
  match atom with
  | None => Returns (MClass invert rs (Some c) false)
  | Some a =>
      if dash then
        if (code c <? code a)%nat then Throws SyntaxError  (* range out of order *)
        else Returns (MClass invert (rs ++ [CRange a c]) None false)
      else Returns (MClass invert (rs ++ [single a]) (Some c) false)
  end.

Definition class_members (rs : list ClassRange) (atom : option ascii) (dash : bool)
    : list ClassRange :=
  match atom with
  | None => rs
  | Some a => if dash then rs ++ [single a; single "-"] else rs ++ [single a]
  end.

Definition step_class (f : frame) (ps : list frame) (invert : bool)
    (rs : list ClassRange) (atom : option ascii) (dash : bool) (c : ascii)
    : outcome pstate :=
  if (c =? "]")%char then
    Returns (PState MNormal (push_atom f (Class invert (class_members rs atom dash))) ps)
  else if (c =? "\")%char then Returns (PState (MClassEscape invert rs atom dash) f ps)
  else if (c =? "-")%char then
    match atom, dash with
    | Some a, false => Returns (PState (MClass invert rs (Some a) true) f ps)
    | _, _ => m <- class_atom invert rs atom dash c ;; Returns (PState m f ps)
    end
  else m <- class_atom invert rs atom dash c ;; Returns (PState m f ps).

Definition step (st : pstate) (c : ascii) : outcome pstate :=
  let f := top st in
  let ps := parents st in
  match pmode st with
  | MNormal => step_normal f ps c
  | MEscape =>
      if identity_escapable c then Returns (PState MNormal (push_atom f (Char c)) ps)
      else Unmodelled
  | MGroupOpen =>
      if (c =? "?")%char then Unmodelled  (* group specifiers, look-around *)
      else step_normal f ps c
  | MClassStart =>
      if (c =? "^")%char then Returns (PState (MClass true [] None false) f ps)
      else step_class f ps false [] None false c
  | MClass invert rs atom dash => step_class f ps invert rs atom dash c
  | MClassEscape invert rs atom dash =>
      if identity_escapable c then
        m <- class_atom invert rs atom dash c ;; Returns (PState m f ps)
      else Unmodelled
  end.

Fixpoint run (st : pstate) (src : list ascii) : outcome pstate :=
  match src with
  | [] => Returns st
  | c :: src' => st' <- step st c ;; run st' src'
  end.

Definition finish (st : pstate) : outcome regex :=
  match pmode st, parents st with
  | MNormal, [] => Returns (frame_regex (top st))
  | _, _ => Throws SyntaxError   (* \ at end, unterminated class or group *)
  end.

Definition parse (src : list ascii) : outcome regex :=
  st <- run pstate0 src ;; finish st.

(** [new RegExp(src)]: the syntax tree, or the SyntaxError. *)
Definition RegExp (src : list ascii) : outcome regex := parse src.

(** *** Matcher

    The backtracking matcher of the language definition, in
    continuation-passing style: a matcher takes the state reached so far
    and the continuation that has to succeed after it.  No construct of
    the fragment reads a capture, and [test] only observes whether the
    match succeeds, so a state is the position alone and a result is a
    boolean. *)

Record MatchState : Type := MState {
  endIndex : nat;                 (* number of characters consumed *)
  rest : list ascii               (* the input from [endIndex] on *)
}.

Definition Continuation : Type := MatchState -> bool.
Definition Matcher : Type := MatchState -> Continuation -> bool.

Definition advance (x : MatchState) (s : list ascii) : MatchState :=
  MState (S (endIndex x)) s.

Definition in_range (ch : ascii) (r : ClassRange) : bool :=
  ((code (lo r) <=? code ch) && (code ch <=? code (hi r)))%nat.

Definition class_contains (rs : list ClassRange) (ch : ascii) : bool :=
  existsb (in_range ch) rs.

Definition is_line_terminator (ch : ascii) : bool :=
  ((code ch =? 10) || (code ch =? 13))%nat.

Definition CharacterSetMatcher (member : ascii -> bool) (invert : bool) : Matcher :=
  fun x c =>
    match rest x with
    | [] => false
    | ch :: s => if xorb (member ch) invert then c (advance x s) else false
    end.

(** An iteration of a [min = 0] repetition that consumes nothing is
    rejected, so every such iteration advances; with the [min]
    mandatory iterations this bounds the depth by
    [min + length (rest x)], the fuel [compile] provides. *)
Fixpoint RepeatMatcher (fuel : nat) (m : Matcher) (min : nat) (max : option nat)
    (greedy : bool) (x : MatchState) (c : Continuation) : bool :=
  match fuel with
  | O => false
  | S fuel' =>
      match max with
      | Some O => c x
      | _ =>
          let d := fun y =>
            if ((min =? 0) && (endIndex y =? endIndex x))%nat then false
            else RepeatMatcher fuel' m (pred min) (option_map pred max) greedy y c in
          if negb (min =? 0)%nat then m x d
          else if greedy then m x d || c x
          else c x || m x d
      end
  end.

Fixpoint compile (r : regex) : Matcher :=
  match r with
  | Empty => fun x c => c x
  | Char ch => CharacterSetMatcher (Ascii.eqb ch) false
  | Dot => CharacterSetMatcher is_line_terminator true
  | Class invert rs => CharacterSetMatcher (class_contains rs) invert
  | AssertStart => fun x c => if (endIndex x =? 0)%nat then c x else false
  | AssertEnd => fun x c => match rest x with [] => c x | _ :: _ => false end
  | Seq r1 r2 => fun x c => compile r1 x (fun y => compile r2 y c)
  | Alt r1 r2 => fun x c => compile r1 x c || compile r2 x c
  | Group r' => compile r'
  | Quant mn mx g r' =>
      fun x c => RepeatMatcher (S (mn + List.length (rest x))) (compile r') mn mx g x c
  end.

(** [re.test(s)] for a regular expression without the global or sticky
    flag: the match is attempted at every index from 0 to the length of
    [s], and the first success ends the search. *)
Fixpoint search (m : Matcher) (lastIndex : nat) (s : list ascii) : bool :=
  if m (MState lastIndex s) (fun _ => true) then true
  else
    match s with
    | [] => false
    | _ :: s' => search m (S lastIndex) s'
    end.

Definition test (re : regex) (s : list ascii) : bool := search (compile re) 0 s.

(** *** What a syntax tree matches, as a relation between positions *)

(** [reads x u y]: from [x], reading the word [u] leads to [y]. *)
Definition reads (x : MatchState) (u : list ascii) (y : MatchState) : Prop :=
  rest x = u ++ rest y /\ endIndex y = endIndex x + List.length u.

Inductive Den : regex -> MatchState -> MatchState -> Prop :=
| DenEmpty x : Den Empty x x
| DenChar ch x s : rest x = ch :: s -> Den (Char ch) x (advance x s)
| DenDot ch x s :
    rest x = ch :: s -> is_line_terminator ch = false -> Den Dot x (advance x s)
| DenClass invert rs ch x s :
    rest x = ch :: s -> xorb (class_contains rs ch) invert = true ->
    Den (Class invert rs) x (advance x s)
| DenStart x : endIndex x = 0 -> Den AssertStart x x
| DenEnd x : rest x = [] -> Den AssertEnd x x
| DenSeq r1 r2 x y z : Den r1 x y -> Den r2 y z -> Den (Seq r1 r2) x z
| DenAltL r1 r2 x y : Den r1 x y -> Den (Alt r1 r2) x y
| DenAltR r1 r2 x y : Den r2 x y -> Den (Alt r1 r2) x y
| DenGroup r x y : Den r x y -> Den (Group r) x y
| DenQuantStop mn mx g r x : mn = 0 \/ mx = Some 0 -> Den (Quant mn mx g r) x x
| DenQuantIter mn mx g r x y z :
    mx <> Some 0 -> Den r x y -> (mn = 0 -> endIndex y <> endIndex x) ->
    Den (Quant (pred mn) (option_map pred mx) g r) y z ->
    Den (Quant mn mx g r) x z.

End RegExp.

(** ** The array methods the library calls *)

Module JsArray.

(** [list.filter(callback)]: the elements are visited by ascending
    index and each one the callback accepts is appended to a fresh
    array. *)
Definition filter {A : Type} (callback : A -> bool) (list_ : list A) : list A :=
  fold_left (fun kept x => if callback x then kept ++ [x] else kept) list_ [].

(** [list.some(callback)]: stops at the first element accepted. *)
Fixpoint some {A : Type} (callback : A -> bool) (list_ : list A) : bool :=
  match list_ with
  | [] => false
  | x :: rest => if callback x then true else some callback rest
  end.

(** [sub] is [l] with some elements removed: same order, nothing added. *)
Inductive subseq {A : Type} : list A -> list A -> Prop :=
| subseq_nil : subseq [] []
| subseq_keep x sub l : subseq sub l -> subseq (x :: sub) (x :: l)
| subseq_drop x sub l : subseq sub l -> subseq sub (x :: l).

(** [list.map(callback)] for a callback that may throw. *)
Definition map {A B : Type} (callback : A -> outcome B) (list_ : list A)
    : outcome (list B) :=
  mapM callback list_.

End JsArray.

(** ** lib/fileglob.js *)

Module Fileglob.

Import RegExp.

(** *** Values

    The objects are those the module creates.  A [FileGlobObj] stands
    for the object built by [new FileGlob(glob)]: its methods close over
    [re], the compiled pattern.  The three set objects close over the
    arrays and sets they were built from. *)
#[warnings="-register-all"]
Inductive object : Type :=
| EmptySet                                       (* const EmptySet = new Set() *)
| FileGlobObj (re : regex)
| FileGlobSetObj (fglobs : list object)
| ComplimentObj (includes excludes : object)
| UnionObj (sets : list object).

#[warnings="-register-all"]
Inductive value : Type :=
| VUndefined
| VString (s : string)
| VObject (o : object)
| VArray (elems : list value).

(** *** Prototypes and [instanceof]

    [FileGlobSet.prototype] and [Compliment.prototype] are the object
    [EmptySet]; [Union.prototype] is another [new Set()];
    [FileGlob.prototype] is the default one. *)
Inductive proto : Type :=
| Object_prototype
| Set_prototype
| FileGlob_prototype
| EmptySet_instance
| Union_prototype.

Definition proto_eqb (p q : proto) : bool :=
  match p, q with
  | Object_prototype, Object_prototype
  | Set_prototype, Set_prototype
  | FileGlob_prototype, FileGlob_prototype
  | EmptySet_instance, EmptySet_instance
  | Union_prototype, Union_prototype => true
  | _, _ => false
  end.

(** The [[Prototype]] slot of each prototype object; [None] is null. *)
Definition proto_of_proto (p : proto) : option proto :=
  match p with
  | Object_prototype => None
  | Set_prototype => Some Object_prototype
  | FileGlob_prototype => Some Object_prototype
  | EmptySet_instance => Some Set_prototype
  | Union_prototype => Some Set_prototype
  end.

(** The [[Prototype]] slot given to an object by [new]. *)
Definition proto_of (o : object) : proto :=
  match o with
  | EmptySet => Set_prototype
  | FileGlobObj _ => FileGlob_prototype
  | FileGlobSetObj _ => EmptySet_instance
  | ComplimentObj _ _ => EmptySet_instance
  | UnionObj _ => Union_prototype
  end.

(** [x instanceof C] walks the chain from the prototype of [x] until it
    meets [C.prototype] or null.  There are five prototype objects and
    no cycle, so five steps reach the end of any chain
    ([instanceof_Set_fuel] below). *)
Fixpoint chain_reaches (fuel : nat) (target : proto) (p : option proto) : bool :=
  match fuel, p with
  | S fuel', Some q =>
      if proto_eqb q target then true
      else chain_reaches fuel' target (proto_of_proto q)
  | _, _ => false
  end.

Definition instanceof_Set (o : object) : bool :=
  chain_reaches 5 Set_prototype (Some (proto_of o)).

(** *** function FileGlob( glob ) *)

(** [glob[i] == 'c']: reading past the end of a string gives
    [undefined], here [None], which is equal to no character. *)
Definition eq_char (v : option ascii) (c : ascii) : bool :=
  match v with
  | Some ch => (ch =? c)%char
  | None => false                 (* undefined == 'c' *)
  end.

Definition globstar_regex : list ascii := list_ascii_of_string "([^/]*/)*".
Definition star_regex : list ascii := list_ascii_of_string "[^/]*".
Definition question_regex : list ascii := list_ascii_of_string "[^/]".
Definition dot_regex : list ascii := list_ascii_of_string "\.".

(** The [for] loop over [i] on a string, with [pattern] as accumulator.
    Every iteration increases [i], so [length glob] iterations are
    enough ([FileGlob_loop_skipn] below).  Under [i < glob.length] the
    read of [glob[i]] finds a character. *)
Fixpoint FileGlob_loop (fuel : nat) (glob : list ascii) (i : nat)
    (pattern : list ascii) : list ascii :=
  match fuel with
  | O => pattern
  | S fuel' =>
      if (i <? List.length glob)%nat then
        match nth_error glob i with
        | None => pattern
        | Some ch =>
            if (ch =? "*")%char then
              if eq_char (nth_error glob (i + 1)) "*"
                 && eq_char (nth_error glob (i + 2)) "/"
              then FileGlob_loop fuel' glob (S (i + 2)) (pattern ++ globstar_regex)
              else FileGlob_loop fuel' glob (S i) (pattern ++ star_regex)
            else if (ch =? "?")%char then
              FileGlob_loop fuel' glob (S i) (pattern ++ question_regex)
            else if (ch =? ".")%char then
              FileGlob_loop fuel' glob (S i) (pattern ++ dot_regex)
            else FileGlob_loop fuel' glob (S i) (pattern ++ [ch])
        end
      else pattern
  end.

(** The value of [pattern] when the loop ends. *)
Definition FileGlob_body (glob : list ascii) : list ascii :=
  FileGlob_loop (List.length glob) glob 0 [].

(** [pattern = '^'+pattern+'$'] *)
Definition FileGlob_pattern (glob : list ascii) : list ascii :=
  "^" :: FileGlob_body glob ++ ["$"].

(** [glob.length] throws on [undefined], is the length of a string, and
    is [undefined] on the objects above, none of which has the property:
    the loop then does not run.  An array as [glob] would be scanned
    element by element, with the conversions of [==] and [+=]. *)
Definition FileGlob (glob : value) : outcome object :=
  match glob with
  | VUndefined => Throws TypeError               (* glob.length *)
  | VString s =>
      re <- RegExp (FileGlob_pattern (list_ascii_of_string s)) ;;
      Returns (FileGlobObj re)
  | VObject _ =>                                 (* 0 < undefined is false *)
      re <- RegExp (list_ascii_of_string "^$") ;;
      Returns (FileGlobObj re)
  | VArray _ => Unmodelled
  end.

(** *** function FileGlobSet( globs ) *)
Definition FileGlobSet (globs : list value) : outcome object :=
  fglobs <- JsArray.map (fun glob => FileGlob glob) globs ;;
  Returns (FileGlobSetObj fglobs).

(** *** function Compliment( includes, excludes ), function Union( sets ) *)
Definition Compliment (includes excludes : object) : object :=
  ComplimentObj includes excludes.

Definition Union (sets : list object) : object := UnionObj sets.

(** *** The methods: [o.matches( path )], [o.filter( list )]

    [EmptySet] has no property of its own and inherits both methods
    from [Set.prototype]; every other object carries the closures its
    constructor assigned to [this]. *)
Fixpoint matches (o : object) (path : string) : bool :=
  match o with
  | EmptySet => false
  | FileGlobObj re => test re (list_ascii_of_string path)
  | FileGlobSetObj fglobs => JsArray.some (fun fglob => matches fglob path) fglobs
  | ComplimentObj includes excludes =>
      matches includes path && negb (matches excludes path)
  | UnionObj sets => JsArray.some (fun set => matches set path) sets
  end.

Definition filter (o : object) (list_ : list string) : list string :=
  match o with
  | EmptySet => []
  | _ => JsArray.filter (fun path => matches o path) list_
  end.

(** *** The factories *)

Definition isaSet (x : value) : bool :=
  match x with
  | VObject o => instanceof_Set o
  | _ => false                     (* primitives and arrays *)
  end.

Definition make (glob : value) : outcome object := FileGlob glob.

Definition makeSet (globs : value) : outcome object :=
  match globs with
  | VUndefined => Returns EmptySet
  | VObject o => if isaSet globs then Returns o else FileGlobSet [globs]
  | VString _ => FileGlobSet [globs]
  | VArray elems => FileGlobSet elems
  end.

Definition makeCompliment (includes excludes : value) : outcome object :=
  i <- makeSet includes ;;
  e <- makeSet excludes ;;
  Returns (Compliment i e).

Fixpoint makeUnion_loop (arguments : list value) (sets : list object)
    : outcome (list object) :=
  match arguments with
  | [] => Returns sets
  | a :: arguments' => s <- makeSet a ;; makeUnion_loop arguments' (sets ++ [s])
  end.

Definition makeUnion (arguments : list value) : outcome object :=
  sets <- makeUnion_loop arguments [] ;;
  Returns (Union sets).

End Fileglob.

(** ** Glob patterns, as the documentation describes them *)

Module Glob.

Import RegExp Fileglob.

(** The tokens of a glob pattern. *)
Inductive token : Type :=
| TGlobstar                       (* the three characters **/ *)
| TStar                           (* * *)
| TQuestion                       (* ? *)
| TDot                            (* . *)
| TChar (c : ascii).              (* any other character *)

(** The scan of [FileGlob], by recursion on the pattern instead of an
    index: what [FileGlob_loop] reads at [i], [i + 1] and [i + 2] are
    the first three characters of what is left. *)
Fixpoint tokenize (glob : list ascii) : list token :=
  match glob with
  | [] => []
  | ch :: glob1 =>
      if (ch =? "*")%char then
        match glob1 with
        | c1 :: c2 :: glob3 =>
            if (c1 =? "*")%char && (c2 =? "/")%char
            then TGlobstar :: tokenize glob3
            else TStar :: tokenize glob1
        | _ => TStar :: tokenize glob1
        end
      else if (ch =? "?")%char then TQuestion :: tokenize glob1
      else if (ch =? ".")%char then TDot :: tokenize glob1
      else TChar ch :: tokenize glob1
  end.

(** The text [FileGlob] appends to [pattern] for a token. *)
Definition token_text (t : token) : list ascii :=
  match t with
  | TGlobstar => globstar_regex
  | TStar => star_regex
  | TQuestion => question_regex
  | TDot => dot_regex
  | TChar c => [c]
  end.

Definition translate (glob : list ascii) : list ascii :=
  flat_map token_text (tokenize glob).

(** The syntax tree of that text. *)
Definition not_slash : regex := Class true [single "/"].

Definition token_regex (t : token) : regex :=
  match t with
  | TGlobstar =>
      Quant 0 None true
        (Group (Seq (Seq Empty (Quant 0 None true not_slash)) (Char "/")))
  | TStar => Quant 0 None true not_slash
  | TQuestion => not_slash
  | TDot => Char "."
  | TChar c => Char c
  end.

(** The syntax tree of ^, the text of the tokens and $. *)
Definition anchored (ts : list token) : regex :=
  Seq (fold_left Seq (List.map token_regex ts) (Seq Empty AssertStart)) AssertEnd.

(** The characters with a meaning in the syntax of regular expressions
    outside a class; the closing bracket and brace stand for themselves
    there when nothing opens them. *)
Definition regex_syntax (c : ascii) : bool :=
  existsb (Ascii.eqb c)
    ["\"; "("; ")"; "["; "|"; "*"; "+"; "?"; "^"; "$"; "."; "{"].

(** A literal character of a glob: none of the above. *)
Definition literal (c : ascii) : bool := negb (regex_syntax c).

(** A character of a plain glob: a literal one or one of the three
    glob characters. *)
Definition glob_char (c : ascii) : bool :=
  literal c || (c =? "*")%char || (c =? "?")%char || (c =? ".")%char.

Definition plain (glob : list ascii) : bool := forallb glob_char glob.

(** *** The documented meaning of the tokens *)

Definition no_separator (u : list ascii) : Prop := ~ In "/" u.

(** Path segments, each followed by a separator. *)
Definition segments (segs : list (list ascii)) : list ascii :=
  List.concat (List.map (fun seg => seg ++ ["/"]) segs).

(** One path segment followed by its separator. *)
Definition segment_word (u : list ascii) : Prop :=
  exists seg, no_separator seg /\ u = seg ++ ["/"].

(** What one token matches. *)
Definition token_matches (t : token) (w : list ascii) : Prop :=
  match t with
  | TGlobstar => exists segs, Forall no_separator segs /\ w = segments segs
  | TStar => no_separator w
  | TQuestion => exists ch, ch <> "/" /\ w = [ch]
  | TDot => w = ["."]
  | TChar c => w = [c]
  end.

(** A path matches a pattern when it splits into one piece per token,
    in order, with nothing before, between or after. *)
Fixpoint GlobMatch (ts : list token) (p : list ascii) : Prop :=
  match ts with
  | [] => p = []
  | t :: ts' => exists w q, p = w ++ q /\ token_matches t w /\ GlobMatch ts' q
  end.

Definition starts_globstar (glob : list ascii) : bool :=
  match glob with
  | c0 :: c1 :: c2 :: _ => (c0 =? "*")%char && (c1 =? "*")%char && (c2 =? "/")%char
  | _ => false
  end.

Fixpoint ends_with_star (glob : list ascii) : bool :=
  match glob with
  | [] => false
  | [c] => (c =? "*")%char
  | _ :: glob' => ends_with_star glob'
  end.

(** The token [FileGlob] makes of one character that does not start
    [**/]. *)
Definition single_token (ch : ascii) : token :=
  if (ch =? "*")%char then TStar
  else if (ch =? "?")%char then TQuestion
  else if (ch =? ".")%char then TDot
  else TChar ch.

(** A token whose text reads back as the token. *)
Definition token_ok (t : token) : Prop :=
  match t with
  | TChar c => literal c = true
  | _ => True
  end.

Definition chars (s : string) : list ascii := list_ascii_of_string s.

(** [make( glob ).matches( path )] *)
Definition glob_matches (glob path : string) : outcome bool :=
  o <- make (VString glob) ;; Returns (matches o path).

(** A string of literal characters only. *)
Definition literal_string (s : string) : bool := forallb literal (chars s).

(** [n] separators in a row. *)
Definition slashes (n : nat) : string := string_of_list_ascii (repeat "/" n).

End Glob.

(** ** Measures of patterns and paths, results of the factories *)

Module Measures.

Import RegExp Fileglob Glob.

(** [r.matches( path )] for the result [r] of a factory. *)
Definition accepts (r : outcome object) (path : string) : outcome bool :=
  o <- r ;; Returns (matches o path).

(** Whether the three characters [**/] occur in a pattern. *)
Fixpoint contains_globstar (glob : list ascii) : bool :=
  match glob with
  | [] => false
  | _ :: glob' => starts_globstar glob || contains_globstar glob'
  end.

(** The number of separators of a path or of a pattern. *)
Definition separators (u : list ascii) : nat :=
  List.length (List.filter (fun c => (c =? "/")%char) u).

Definition token_separators (t : token) : nat :=
  match t with
  | TChar c => if (c =? "/")%char then 1 else 0
  | _ => 0
  end.

(** Whether a token is a star, alone or doubled with its separator. *)
Definition is_star_token (t : token) : bool :=
  match t with
  | TGlobstar | TStar => true
  | _ => false
  end.

(** The pattern lists of strings. *)
Definition strings (globs : list string) : value := VArray (List.map VString globs).

End Measures.

(** * Properties *)

Import RegExp Fileglob Glob.

(** ** The matcher and the relation agree *)

Ltac rewrite_rest :=
  match goal with E : rest _ = _ |- _ => rewrite E end.

(** A conjunction of closed equations, each settled by evaluation. *)
Ltac evaluate :=
  repeat match goal with |- _ /\ _ => split end; vm_compute; reflexivity.

Section MatcherFacts.

Lemma Den_consumes r x y :
  Den r x y ->
  exists u, rest x = u ++ rest y /\ endIndex y = endIndex x + List.length u.
Proof.
  induction 1;
    try (exists []; split; [reflexivity | simpl; lia]);
    try (exists [ch]; split; [assumption | simpl; lia]);
    try assumption.
  - destruct IHDen1 as (u1 & E1 & L1), IHDen2 as (u2 & E2 & L2).
    exists (u1 ++ u2). rewrite E1, E2, L2, L1, length_app, app_assoc.
    split; [reflexivity | lia].
  - destruct IHDen1 as (u1 & E1 & L1), IHDen2 as (u2 & E2 & L2).
    exists (u1 ++ u2). rewrite E1, E2, L2, L1, length_app, app_assoc.
    split; [reflexivity | lia].
Qed.

Lemma Den_shrinks r x y :
  Den r x y -> List.length (rest y) <= List.length (rest x).
Proof.
  intros H. destruct (Den_consumes H) as (u & E & _).
  rewrite E, length_app. lia.
Qed.

Lemma Den_progress r x y :
  Den r x y -> endIndex y <> endIndex x ->
  List.length (rest y) < List.length (rest x).
Proof.
  intros H N. destruct (Den_consumes H) as (u & E & L).
  rewrite E, length_app. destruct u; simpl in *; lia.
Qed.

Lemma RepeatMatcher_unfold fuel m mn mx g x c :
  mx <> Some 0 ->
  RepeatMatcher (S fuel) m mn mx g x c =
  let d := fun y =>
    if ((mn =? 0) && (endIndex y =? endIndex x))%nat then false
    else RepeatMatcher fuel m (pred mn) (option_map pred mx) g y c in
  if negb (mn =? 0)%nat then m x d
  else if g then m x d || c x else c x || m x d.
Proof.
  intros N. destruct mx as [[|k]|]; [congruence | reflexivity | reflexivity].
Qed.

Section Repeat.

Variables (m : Matcher) (r : regex).
Hypothesis m_spec :
  forall x c, m x c = true <-> exists y, Den r x y /\ c y = true.

Lemma RepeatMatcher_sound fuel :
  forall mn mx g x c,
    RepeatMatcher fuel m mn mx g x c = true ->
    exists y, Den (Quant mn mx g r) x y /\ c y = true.
Proof.
  induction fuel as [|fuel IH]; intros mn mx g x c H; [discriminate|].
  assert (Hmx : mx = Some 0 \/ mx <> Some 0)
    by (destruct mx as [[|k]|]; [left; reflexivity | right; congruence ..]).
  destruct Hmx as [-> | Hmx].
  - simpl in H. exists x. split; [apply DenQuantStop; now right | assumption].
  - rewrite (RepeatMatcher_unfold _ _ _ _ _ _ Hmx) in H. cbv zeta in H.
    assert (Iter :
      m x (fun y => if ((mn =? 0) && (endIndex y =? endIndex x))%nat then false
                    else RepeatMatcher fuel m (pred mn) (option_map pred mx) g y c)
      = true -> exists y, Den (Quant mn mx g r) x y /\ c y = true).
    { intros Hm. apply m_spec in Hm. destruct Hm as (y & Hy & Hd).
      destruct ((mn =? 0) && (endIndex y =? endIndex x))%nat eqn:E; [discriminate|].
      apply IH in Hd. destruct Hd as (z & Hz & Hc).
      exists z. split; [|assumption].
      eapply DenQuantIter; eauto.
      intros ->. simpl in E. now apply Nat.eqb_neq in E. }
    assert (Stop : mn = 0 -> c x = true ->
                   exists y, Den (Quant mn mx g r) x y /\ c y = true).
    { intros -> Hc. exists x. split; [apply DenQuantStop; now left | assumption]. }
    destruct (mn =? 0)%nat eqn:E; simpl in H.
    + apply Nat.eqb_eq in E.
      destruct g; apply orb_true_iff in H; destruct H as [H|H]; auto.
    + auto.
Qed.

Lemma RepeatMatcher_complete q x z :
  Den q x z ->
  forall mn mx g fuel c,
    q = Quant mn mx g r ->
    mn + List.length (rest x) < fuel -> c z = true ->
    RepeatMatcher fuel m mn mx g x c = true.
Proof.
  induction 1; intros mn' mx' g' fuel c Eq Hf Hc; try discriminate.
  - injection Eq as -> -> -> ->.
    destruct fuel as [|fuel]; [lia|].
    destruct H as [-> | ->]; [|simpl; assumption].
    assert (Hmx : mx' = Some 0 \/ mx' <> Some 0)
      by (destruct mx' as [[|k]|]; [left; reflexivity | right; congruence ..]).
    destruct Hmx as [-> | Hmx]; [simpl; assumption|].
    rewrite (RepeatMatcher_unfold _ _ _ _ _ _ Hmx). cbv zeta. simpl.
    destruct g'; rewrite Hc; [apply orb_true_r | reflexivity].
  - injection Eq as -> -> -> ->.
    destruct fuel as [|fuel]; [lia|].
    rewrite (RepeatMatcher_unfold _ _ _ _ _ _ H). cbv zeta.
    set (d := fun y0 : MatchState => _).
    assert (Hm : m x d = true).
    { apply m_spec. exists y. split; [assumption|]. unfold d.
      assert (E : ((mn' =? 0) && (endIndex y =? endIndex x))%nat = false).
      { destruct mn'; [|reflexivity]. simpl. apply Nat.eqb_neq. auto. }
      rewrite E. apply IHDen2; [reflexivity | | assumption].
      destruct mn' as [|k].
      - pose proof (Den_progress H0 (H1 eq_refl)). simpl. lia.
      - pose proof (Den_shrinks H0). simpl. lia. }
    clearbody d.
    destruct (mn' =? 0)%nat; simpl; [|assumption].
    destruct g'; rewrite Hm; [reflexivity | apply orb_true_r].
Qed.

End Repeat.

(** The backtracking matcher succeeds exactly when the relation reaches
    a state the continuation accepts. *)
Lemma compile_spec r :
  forall x c, compile r x c = true <-> exists y, Den r x y /\ c y = true.
Proof.
  induction r as [ | ch | | invert rs | | | r1 IH1 r2 IH2 | r1 IH1 r2 IH2 | r IH
                 | mn mx g r IH ]; intros x c; cbn [compile].
  - split; [intros H; exists x; split; [constructor | assumption]|].
    intros (y & Hy & Hc). inversion Hy; subst; assumption.
  - unfold CharacterSetMatcher. split.
    + destruct (rest x) as [|ch' s] eqn:E; [discriminate|].
      destruct (ch =? ch')%char eqn:Ec; simpl; [|discriminate].
      apply Ascii.eqb_eq in Ec. subst ch'. intros H.
      exists (advance x s). split; [now constructor | assumption].
    + intros (y & Hy & Hc). inversion Hy; subst.
      rewrite_rest. rewrite Ascii.eqb_refl. simpl. assumption.
  - unfold CharacterSetMatcher. split.
    + destruct (rest x) as [|ch' s] eqn:E; [discriminate|].
      destruct (is_line_terminator ch') eqn:Ec; simpl; [discriminate|].
      intros H. exists (advance x s). split; [now econstructor; eauto | assumption].
    + intros (y & Hy & Hc). inversion Hy; subst.
      rewrite_rest.
      match goal with E : is_line_terminator _ = _ |- _ => rewrite E end.
      simpl. assumption.
  - unfold CharacterSetMatcher. split.
    + destruct (rest x) as [|ch' s] eqn:E; [discriminate|].
      destruct (xorb (class_contains rs ch') invert) eqn:Ec; [|discriminate].
      intros H. exists (advance x s). split; [now econstructor; eauto | assumption].
    + intros (y & Hy & Hc). inversion Hy; subst.
      rewrite_rest.
      match goal with E : xorb _ _ = true |- _ => rewrite E end.
      assumption.
  - split.
    + destruct (endIndex x =? 0)%nat eqn:E; [|discriminate].
      apply Nat.eqb_eq in E. intros H. exists x. split; [now constructor | assumption].
    + intros (y & Hy & Hc). inversion Hy; subst.
      match goal with E : endIndex _ = 0 |- _ => rewrite E end.
      simpl. assumption.
  - split.
    + destruct (rest x) eqn:E; [|discriminate].
      intros H. exists x. split; [now constructor | assumption].
    + intros (y & Hy & Hc). inversion Hy; subst. rewrite_rest. assumption.
  - rewrite IH1. split.
    + intros (y & Hy & H). apply IH2 in H. destruct H as (z & Hz & Hc).
      exists z. split; [econstructor; eauto | assumption].
    + intros (z & Hz & Hc). inversion Hz; subst.
      exists y. split; [assumption|]. apply IH2. eauto.
  - rewrite orb_true_iff, IH1, IH2. split.
    + intros [(y & Hy & Hc) | (y & Hy & Hc)]; exists y; split; auto.
      * now apply DenAltL.
      * now apply DenAltR.
    + intros (y & Hy & Hc). inversion Hy; subst; eauto.
  - rewrite IH. split.
    + intros (y & Hy & Hc). exists y. split; [now constructor | assumption].
    + intros (y & Hy & Hc). inversion Hy; subst. eauto.
  - split.
    + apply RepeatMatcher_sound. assumption.
    + intros (y & Hy & Hc).
      eapply RepeatMatcher_complete; eauto.
Qed.

End MatcherFacts.

(** ** The scan of [FileGlob] *)

Section Scan.

Lemma starts_globstar_true g :
  starts_globstar g = true -> exists g3, g = "*" :: "*" :: "/" :: g3.
Proof.
  destruct g as [|c0 [|c1 [|c2 g3]]]; simpl; try discriminate.
  intros H. apply andb_true_iff in H. destruct H as [H H2].
  apply andb_true_iff in H. destruct H as [H0 H1].
  apply Ascii.eqb_eq in H0, H1, H2. subst. now exists g3.
Qed.

Lemma tokenize_globstar g3 :
  tokenize ("*" :: "*" :: "/" :: g3) = TGlobstar :: tokenize g3.
Proof. reflexivity. Qed.

Lemma tokenize_single ch g1 :
  starts_globstar (ch :: g1) = false ->
  tokenize (ch :: g1) = single_token ch :: tokenize g1.
Proof.
  unfold single_token. simpl.
  destruct (ch =? "*")%char; [|intros _; destruct (ch =? "?")%char;
                                [|destruct (ch =? ".")%char]; reflexivity].
  destruct g1 as [|c1 [|c2 g3]]; simpl; try reflexivity.
  intros ->. reflexivity.
Qed.

(** Induction along the scan: three characters at a time on [**/], one
    at a time otherwise. *)
Lemma glob_ind (P : list ascii -> Prop) :
  P [] ->
  (forall g3, P g3 -> P ("*" :: "*" :: "/" :: g3)) ->
  (forall ch g1, starts_globstar (ch :: g1) = false -> P g1 -> P (ch :: g1)) ->
  forall g, P g.
Proof.
  intros H0 H3 H1 g.
  assert (H : forall n g', List.length g' <= n -> P g').
  { induction n as [|n IH]; intros g' L.
    - destruct g'; [assumption | simpl in L; lia].
    - destruct g' as [|ch g1]; [assumption|].
      destruct (starts_globstar (ch :: g1)) eqn:E.
      + apply starts_globstar_true in E. destruct E as (g3 & E).
        rewrite E. apply H3, IH.
        injection E as -> ->. simpl in L. lia.
      + apply H1; [assumption|]. apply IH. simpl in L. lia. }
  apply (H (List.length g)). lia.
Qed.

Lemma translate_globstar g3 :
  translate ("*" :: "*" :: "/" :: g3) = globstar_regex ++ translate g3.
Proof. reflexivity. Qed.

Lemma translate_single ch g1 :
  starts_globstar (ch :: g1) = false ->
  translate (ch :: g1) = token_text (single_token ch) ++ translate g1.
Proof.
  intros H. unfold translate. rewrite (tokenize_single _ _ H). reflexivity.
Qed.

Lemma nth_error_skipn_plus (g : list ascii) i k :
  nth_error g (i + k) = nth_error (skipn i g) k.
Proof.
  revert g. induction i as [|i IH]; intros g; [reflexivity|].
  destruct g; simpl; [now destruct k | apply IH].
Qed.

Lemma skipn_cons_nth (g : list ascii) i ch :
  nth_error g i = Some ch -> skipn i g = ch :: skipn (S i) g.
Proof.
  revert g. induction i as [|i IH]; intros g H; destruct g; try discriminate.
  - injection H as ->. reflexivity.
  - apply (IH _ H).
Qed.

(** The loop over the index computes the translation of what is left of
    the pattern, provided it is given one unit of fuel per character
    left. *)
Lemma FileGlob_loop_skipn fuel :
  forall glob i pattern,
    List.length glob - i <= fuel ->
    FileGlob_loop fuel glob i pattern = pattern ++ translate (skipn i glob).
Proof.
  induction fuel as [|fuel IH]; intros glob i pattern L.
  - simpl. rewrite skipn_all2 by lia. now rewrite app_nil_r.
  - simpl. destruct (i <? List.length glob)%nat eqn:Ei.
    2: { apply Nat.ltb_ge in Ei. rewrite skipn_all2 by lia. now rewrite app_nil_r. }
    apply Nat.ltb_lt in Ei.
    destruct (nth_error glob i) as [ch|] eqn:En.
    2: { apply nth_error_None in En. lia. }
    rewrite (skipn_cons_nth _ _ En).
    rewrite !nth_error_skipn_plus, (skipn_cons_nth _ _ En).
    assert (E3 : forall g3, skipn (S i) glob = "*" :: "/" :: g3 ->
                            skipn (S (i + 2)) glob = g3).
    { intros g3 E. replace (S (i + 2)) with (2 + S i) by lia.
      rewrite <- skipn_skipn, E. reflexivity. }
    remember (skipn (S i) glob) as g1 eqn:Eg1.
    change (nth_error (ch :: g1) 1) with (nth_error g1 0).
    change (nth_error (ch :: g1) 2) with (nth_error g1 1).
    destruct (starts_globstar (ch :: g1)) eqn:Eg.
    + pose proof (starts_globstar_true _ Eg) as (g3 & E).
      injection E as -> ->. simpl.
      rewrite IH by lia. rewrite (E3 g3 eq_refl), translate_globstar.
      now rewrite <- app_assoc.
    + rewrite (translate_single _ _ Eg).
      assert (Es : (if (ch =? "*")%char
                    then eq_char (nth_error g1 0) "*" && eq_char (nth_error g1 1) "/"
                    else false) = false).
      { destruct (ch =? "*")%char eqn:Ec; [|reflexivity].
        revert Eg. simpl. rewrite Ec.
        destruct g1 as [|c1 [|c2 g3]]; simpl;
          try reflexivity; try (intros _; apply andb_false_r).
        intros H; exact H. }
      unfold single_token.
      destruct (ch =? "*")%char.
      * rewrite Es. rewrite IH by lia. rewrite <- Eg1. now rewrite <- app_assoc.
      * destruct (ch =? "?")%char; [|destruct (ch =? ".")%char];
          (rewrite IH by lia; rewrite <- Eg1; now rewrite <- app_assoc).
Qed.

Lemma FileGlob_body_translate glob : FileGlob_body glob = translate glob.
Proof. unfold FileGlob_body. rewrite FileGlob_loop_skipn by lia. reflexivity. Qed.

Lemma FileGlob_pattern_translate glob :
  FileGlob_pattern glob = "^" :: translate glob ++ ["$"].
Proof. unfold FileGlob_pattern. now rewrite FileGlob_body_translate. Qed.

End Scan.

(** ** The pattern text of a plain glob parses to the expected tree *)

Section Parser.

Lemma run_app st a b : run st (a ++ b) = (st' <- run st a ;; run st' b).
Proof.
  revert st. induction a as [|c a IH]; intros st; simpl; [reflexivity|].
  destruct (step st c); simpl; auto.
Qed.

Lemma literal_not_syntax c :
  literal c = true ->
  forall s, In s ["\"; "("; ")"; "["; "|"; "*"; "+"; "?"; "^"; "$"; "."; "{"] ->
            (c =? s)%char = false.
Proof.
  unfold literal, regex_syntax. intros H s Hs.
  apply negb_true_iff in H.
  destruct (c =? s)%char eqn:E; [|reflexivity].
  rewrite <- H. symmetry. apply existsb_exists. exists s. auto.
Qed.

Lemma step_normal_literal f ps c :
  literal c = true ->
  step_normal f ps c = Returns (PState MNormal (push_atom f (Char c)) ps).
Proof.
  intros H. pose proof (literal_not_syntax _ H) as N. unfold step_normal.
  rewrite !N by (simpl; tauto). reflexivity.
Qed.

Lemma run_token t f ps :
  token_ok t ->
  exists f',
    run (PState MNormal f ps) (token_text t) = Returns (PState MNormal f' ps)
    /\ alts f' = alts f
    /\ commit f' = Seq (commit f) (token_regex t).
Proof.
  destruct t; intros Ok;
    try (eexists; split; [reflexivity | split; reflexivity]).
  simpl in Ok. simpl. unfold step. simpl. rewrite (step_normal_literal _ _ _ Ok).
  eexists; split; [reflexivity | split; reflexivity].
Qed.

Lemma run_tokens ts :
  forall f ps,
    Forall token_ok ts ->
    exists f',
      run (PState MNormal f ps) (flat_map token_text ts)
      = Returns (PState MNormal f' ps)
      /\ alts f' = alts f
      /\ commit f' = fold_left Seq (List.map token_regex ts) (commit f).
Proof.
  induction ts as [|t ts IH]; intros f ps Ok.
  - exists f. repeat split.
  - inversion Ok as [|? ? Ht Hts]; subst.
    destruct (run_token t f ps Ht) as (f1 & R1 & A1 & C1).
    destruct (IH f1 ps Hts) as (f2 & R2 & A2 & C2).
    exists f2. simpl. rewrite run_app, R1. simpl.
    rewrite R2, A2, A1, C2, C1. repeat split.
Qed.

Lemma parse_anchored ts :
  Forall token_ok ts ->
  parse ("^" :: flat_map token_text ts ++ ["$"]) = Returns (anchored ts).
Proof.
  intros Ok. unfold parse. cbn [run].
  change (step pstate0 "^")
    with (Returns (PState MNormal (push_assertion frame0 AssertStart) [])).
  cbn [bind]. rewrite run_app.
  destruct (run_tokens (push_assertion frame0 AssertStart) [] Ok) as (f & R & A & C).
  rewrite R. cbn [bind run].
  change (step (PState MNormal f []) "$")
    with (Returns (PState MNormal (push_assertion f AssertEnd) [])).
  cbn [bind]. unfold anchored. change (Seq Empty AssertStart)
    with (commit (push_assertion frame0 AssertStart)).
  rewrite <- C. simpl in A. unfold finish, frame_regex, push_assertion.
  simpl. rewrite A. reflexivity.
Qed.

Lemma single_token_ok ch : glob_char ch = true -> token_ok (single_token ch).
Proof.
  unfold glob_char, single_token. intros H.
  destruct (ch =? "*")%char; [exact I|].
  destruct (ch =? "?")%char; [exact I|].
  destruct (ch =? ".")%char; [exact I|].
  simpl. now rewrite !orb_false_r in H.
Qed.

Lemma tokenize_ok g : plain g = true -> Forall token_ok (tokenize g).
Proof.
  induction g as [ | g3 IH | ch g1 Hs IH ] using glob_ind; intros P.
  - constructor.
  - rewrite tokenize_globstar. constructor; [exact I|].
    apply IH. simpl in P. exact P.
  - rewrite (tokenize_single _ _ Hs).
    simpl in P. apply andb_true_iff in P. destruct P as [Pc Pg].
    constructor; [now apply single_token_ok | now apply IH].
Qed.

(** [new RegExp] accepts the pattern text of every plain glob. *)
Lemma RegExp_plain g :
  plain g = true ->
  RegExp (FileGlob_pattern g) = Returns (anchored (tokenize g)).
Proof.
  intros P. rewrite FileGlob_pattern_translate. unfold RegExp, translate.
  apply parse_anchored, tokenize_ok, P.
Qed.

End Parser.

(** ** What the tree of a plain glob matches *)

Section Reading.

Lemma reads_nil x : reads x [] x.
Proof. split; simpl; [reflexivity | lia]. Qed.

Lemma reads_nil_inv x y : reads x [] y -> y = x.
Proof.
  destruct x, y. unfold reads. simpl. intros [-> ->]. f_equal. lia.
Qed.

Lemma reads_app x u y v z : reads x u y -> reads y v z -> reads x (u ++ v) z.
Proof.
  intros [E1 L1] [E2 L2]. split.
  - now rewrite E1, E2, app_assoc.
  - rewrite L2, L1, length_app. lia.
Qed.

Lemma reads_split x u v z :
  reads x (u ++ v) z -> exists y, reads x u y /\ reads y v z.
Proof.
  intros [E L]. exists (MState (endIndex x + List.length u) (v ++ rest z)).
  split; split; simpl; auto.
  - now rewrite E, app_assoc.
  - rewrite L, length_app. lia.
Qed.

Lemma reads_advance x ch s : rest x = ch :: s -> reads x [ch] (advance x s).
Proof. intros E. split; simpl; [assumption | lia]. Qed.

Lemma reads_one x ch y : reads x [ch] y -> rest x = ch :: rest y /\ y = advance x (rest y).
Proof.
  intros R. destruct R as [E L]. split; [assumption|].
  destruct y. unfold advance. simpl in *. f_equal. lia.
Qed.

Lemma Den_Char c x y : Den (Char c) x y <-> reads x [c] y.
Proof.
  split.
  - intros H. inversion H; subst. now apply reads_advance.
  - intros R. apply reads_one in R. destruct R as [E ->]. now constructor.
Qed.

Lemma code_inj a b : code a = code b -> a = b.
Proof.
  unfold code. intros H.
  rewrite <- (ascii_nat_embedding a), <- (ascii_nat_embedding b). now rewrite H.
Qed.

Lemma contains_slash ch : class_contains [single "/"] ch = (ch =? "/")%char.
Proof.
  unfold class_contains, in_range. simpl. rewrite orb_false_r.
  destruct (ch =? "/")%char eqn:E.
  - apply Ascii.eqb_eq in E. subst. reflexivity.
  - apply andb_false_iff.
    destruct (47 <=? code ch)%nat eqn:E1; [right | now left].
    apply Nat.leb_gt. apply Nat.leb_le in E1.
    change (code "/") with 47 in *.
    assert (code ch <> 47); [|lia].
    intros C. apply Ascii.eqb_neq in E. apply E. apply code_inj. exact C.
Qed.

Lemma Den_not_slash x y :
  Den not_slash x y <-> exists u, (exists ch, ch <> "/" /\ u = [ch]) /\ reads x u y.
Proof.
  unfold not_slash. split.
  - intros H. inversion H; subst.
    match goal with E : xorb _ _ = true |- _ => rename E into X end.
    rewrite contains_slash in X.
    exists [ch]. split; [|now apply reads_advance].
    exists ch. split; [|reflexivity].
    intros ->. discriminate.
  - intros (u & (ch & N & ->) & R). apply reads_one in R. destruct R as [E ->].
    econstructor; [eassumption|]. rewrite contains_slash.
    apply Ascii.eqb_neq in N. now rewrite N.
Qed.

(** Zero or more repetitions of a tree that reads the words of [P]. *)
Section Star.

Variables (r : regex) (P : list ascii -> Prop).
Hypothesis r_spec : forall x y, Den r x y <-> exists u, P u /\ reads x u y.

Lemma Den_star_words q x y :
  Den q x y ->
  forall g, q = Quant 0 None g r ->
  exists us, Forall P us /\ reads x (List.concat us) y.
Proof.
  induction 1; intros g' Eq; try discriminate.
  - exists []. split; [constructor | apply reads_nil].
  - injection Eq as -> -> -> ->.
    destruct (IHDen2 g' eq_refl) as (us & Hus & R).
    match goal with D : Den r x y |- _ => apply r_spec in D;
      destruct D as (u & Hu & Ru) end.
    exists (u :: us). split; [now constructor|].
    simpl. eapply reads_app; eassumption.
Qed.

Lemma words_Den_star g us :
  Forall P us -> forall x y, reads x (List.concat us) y -> Den (Quant 0 None g r) x y.
Proof.
  induction 1 as [|u us Hu Hus IH]; intros x y R.
  - apply reads_nil_inv in R. subst. apply DenQuantStop. now left.
  - simpl in R. apply reads_split in R. destruct R as (y1 & R1 & R2).
    destruct u as [|ch u].
    + apply reads_nil_inv in R1. subst. now apply IH.
    + eapply DenQuantIter with (y := y1).
      * discriminate.
      * apply r_spec. eauto.
      * intros _. destruct R1 as [_ L]. simpl in L. lia.
      * now apply IH.
Qed.

Lemma Den_star g x y :
  Den (Quant 0 None g r) x y <->
  exists us, Forall P us /\ reads x (List.concat us) y.
Proof.
  split.
  - intros H. eapply Den_star_words; eauto.
  - intros (us & Hus & R). eapply words_Den_star; eauto.
Qed.

End Star.

Lemma no_separator_nil : no_separator [].
Proof. intros []. Qed.

Lemma no_separator_cons ch u :
  no_separator (ch :: u) <-> ch <> "/" /\ no_separator u.
Proof.
  unfold no_separator. simpl. split.
  - intros H. split; intros C; apply H; auto.
  - intros [H1 H2] [C | C]; [now apply H1 | now apply H2].
Qed.

Lemma no_separator_app u v :
  no_separator (u ++ v) <-> no_separator u /\ no_separator v.
Proof.
  unfold no_separator. rewrite in_app_iff. tauto.
Qed.

(** A word without separator is a sequence of characters other than
    the separator, and conversely. *)
Lemma characters_no_separator us :
  Forall (fun u => exists ch, ch <> "/" /\ u = [ch]) us ->
  no_separator (List.concat us).
Proof.
  induction 1 as [|u us (ch & N & ->) _ IH]; simpl.
  - apply no_separator_nil.
  - apply no_separator_cons. auto.
Qed.

Lemma no_separator_characters u :
  no_separator u ->
  exists us, Forall (fun u => exists ch, ch <> "/" /\ u = [ch]) us
             /\ List.concat us = u.
Proof.
  induction u as [|ch u IH]; intros H.
  - exists []. split; [constructor | reflexivity].
  - apply no_separator_cons in H. destruct H as [N H].
    destruct (IH H) as (us & Hus & E).
    exists ([ch] :: us). split; [constructor; eauto|].
    simpl. now rewrite E.
Qed.

Lemma Den_star_not_slash g x y :
  Den (Quant 0 None g not_slash) x y <-> exists u, no_separator u /\ reads x u y.
Proof.
  rewrite (Den_star _ Den_not_slash). split.
  - intros (us & Hus & R). exists (List.concat us).
    split; [now apply characters_no_separator | assumption].
  - intros (u & Hu & R). destruct (no_separator_characters Hu) as (us & Hus & E).
    exists us. rewrite E. auto.
Qed.

Lemma Den_segment x y :
  Den (Group (Seq (Seq Empty (Quant 0 None true not_slash)) (Char "/"))) x y <->
  exists u, segment_word u /\ reads x u y.
Proof.
  split.
  - intros H. inversion H as [ | | | | | | | | | ? ? ? H1 | | ]; subst.
    inversion H1 as [ | | | | | | ? ? ? ? ? H2 H3 | | | | | ]; subst.
    inversion H2 as [ | | | | | | ? ? ? ? ? H4 H5 | | | | | ]; subst.
    inversion H4; subst.
    apply Den_star_not_slash in H5. destruct H5 as (seg & Hs & R).
    apply Den_Char in H3.
    exists (seg ++ ["/"]). split; [now exists seg | eapply reads_app; eauto].
  - intros (u & (seg & Hs & ->) & R).
    apply reads_split in R. destruct R as (y1 & R1 & R2).
    constructor. apply DenSeq with (y := y1).
    + apply DenSeq with (y := x); [constructor|].
      apply Den_star_not_slash. eauto.
    + now apply Den_Char.
Qed.

Lemma segments_words segs :
  Forall no_separator segs ->
  Forall segment_word (List.map (fun seg => seg ++ ["/"]) segs).
Proof.
  induction 1; simpl; constructor; auto. now eexists.
Qed.

Lemma words_segments us :
  Forall segment_word us ->
  exists segs, Forall no_separator segs /\ List.concat us = segments segs.
Proof.
  induction 1 as [|u us (seg & Hs & ->) _ (segs & Hsegs & E)].
  - exists []. split; [constructor | reflexivity].
  - exists (seg :: segs). split; [now constructor|].
    unfold segments in *. simpl. now rewrite E.
Qed.

Lemma Den_token t x y :
  Den (token_regex t) x y <-> exists w, token_matches t w /\ reads x w y.
Proof.
  destruct t; simpl.
  - rewrite (Den_star _ Den_segment). split.
    + intros (us & Hus & R). destruct (words_segments Hus) as (segs & Hs & E).
      exists (List.concat us). split; [now exists segs | assumption].
    + intros (w & (segs & Hs & ->) & R).
      exists (List.map (fun seg => seg ++ ["/"]) segs).
      split; [now apply segments_words | assumption].
  - apply Den_star_not_slash.
  - apply Den_not_slash.
  - rewrite Den_Char. split; [eauto|]. now intros (w & -> & R).
  - rewrite Den_Char. split; [eauto|]. now intros (w & -> & R).
Qed.

Lemma Den_tokens ts :
  forall r0 x z,
    Den (fold_left Seq (List.map token_regex ts) r0) x z <->
    exists y u, Den r0 x y /\ reads y u z /\ GlobMatch ts u.
Proof.
  induction ts as [|t ts IH]; intros r0 x z; simpl.
  - split.
    + intros H. exists z, []. split; [assumption|]. split; [apply reads_nil | reflexivity].
    + intros (y & u & H & R & ->). apply reads_nil_inv in R. now subst.
  - rewrite IH. split.
    + intros (y & u & H & R & G). inversion H; subst.
      match goal with D : Den (token_regex t) _ _ |- _ =>
        apply Den_token in D; destruct D as (w & Hw & Rw) end.
      eexists _, (w ++ u). split; [eassumption|].
      split; [eapply reads_app; eauto|]. now exists w, u.
    + intros (y & p & H & R & (w & q & -> & Hw & G)).
      apply reads_split in R. destruct R as (y1 & R1 & R2).
      exists y1, q. split; [|auto].
      apply DenSeq with (y := y); [assumption|].
      apply Den_token. eauto.
Qed.

Lemma search_spec m s :
  forall i,
    search m i s = true <->
    exists u v, s = u ++ v
                /\ m (MState (i + List.length u) v) (fun _ => true) = true.
Proof.
  induction s as [|ch s IH]; intros i; simpl.
  - split.
    + destruct (m (MState i []) (fun _ => true)) eqn:E; [|discriminate].
      intros _. exists [], []. simpl. rewrite Nat.add_0_r. auto.
    + intros (u & v & E & H). symmetry in E. apply app_eq_nil in E.
      destruct E as [-> ->]. simpl in H. rewrite Nat.add_0_r in H. now rewrite H.
  - destruct (m (MState i (ch :: s)) (fun _ => true)) eqn:E.
    + split; [|reflexivity]. intros _. exists [], (ch :: s). simpl.
      rewrite Nat.add_0_r. auto.
    + rewrite IH. split.
      * intros (u & v & -> & H). exists (ch :: u), v. simpl.
        replace (i + S (List.length u)) with (S i + List.length u) by lia. auto.
      * intros (u & v & Es & H). destruct u as [|c u].
        { simpl in *. subst v. rewrite Nat.add_0_r in H. congruence. }
        injection Es as -> ->. exists u, v. split; [reflexivity|].
        simpl in H.
        now replace (S i + List.length u) with (i + S (List.length u)) by lia.
Qed.

(** The anchored tree of a token list accepts exactly the paths the
    token list describes. *)
Lemma test_anchored ts s : test (anchored ts) s = true <-> GlobMatch ts s.
Proof.
  unfold test. rewrite search_spec. split.
  - intros (u & v & -> & H). apply compile_spec in H.
    destruct H as (y & H & _). unfold anchored in H.
    inversion H as [ | | | | | | ? ? ? ? ? H1 H2 | | | | | ]; subst.
    inversion H2; subst.
    apply Den_tokens in H1. destruct H1 as (y1 & w & H1 & R & G).
    inversion H1 as [ | | | | | | ? ? ? ? ? H3 H4 | | | | | ]; subst.
    inversion H3; subst. inversion H4; subst.
    simpl in *. destruct u; [|discriminate]. simpl.
    destruct R as [E _]. simpl in E.
    match goal with N : rest y = [] |- _ => rewrite N in E end.
    rewrite app_nil_r in E. now subst.
  - intros G. exists [], s. split; [reflexivity|].
    apply compile_spec. exists (MState (List.length s) []). split; [|reflexivity].
    unfold anchored. apply DenSeq with (y := MState (List.length s) []).
    + apply Den_tokens. exists (MState 0 s), s. repeat split; auto.
      * apply DenSeq with (y := MState 0 s); now constructor.
      * simpl. now rewrite app_nil_r.
    + now constructor.
Qed.

End Reading.

(** ** Plain globs: the matcher agrees with the documented meaning *)

Section PlainGlobs.

Lemma chars_append (a b : string) : chars (a ++ b)%string = chars a ++ chars b.
Proof.
  unfold chars. induction a as [|c a IH]; simpl; [reflexivity | now rewrite IH].
Qed.

Lemma chars_inj (a b : string) : chars a = chars b -> a = b.
Proof.
  unfold chars. intros H.
  rewrite <- (string_of_list_ascii_of_string a), <- (string_of_list_ascii_of_string b).
  now rewrite H.
Qed.

Lemma chars_of_list l : chars (string_of_list_ascii l) = l.
Proof. apply list_ascii_of_string_of_list_ascii. Qed.

Lemma make_plain g :
  plain (chars g) = true ->
  make (VString g) = Returns (FileGlobObj (anchored (tokenize (chars g)))).
Proof.
  intros P. unfold make, FileGlob. fold (chars g). now rewrite (RegExp_plain _ P).
Qed.

(** The matcher of a plain glob accepts exactly the paths that split
    along its tokens. *)
Lemma glob_matches_plain g p :
  plain (chars g) = true ->
  exists b, glob_matches g p = Returns b
            /\ (b = true <-> GlobMatch (tokenize (chars g)) (chars p)).
Proof.
  intros P. unfold glob_matches. rewrite (make_plain _ P). simpl.
  eexists. split; [reflexivity|]. apply test_anchored.
Qed.

Lemma GlobMatch_app ts1 ts2 :
  forall p,
    GlobMatch (ts1 ++ ts2) p <->
    exists p1 p2, p = p1 ++ p2 /\ GlobMatch ts1 p1 /\ GlobMatch ts2 p2.
Proof.
  induction ts1 as [|t ts1 IH]; intros p; simpl.
  - split.
    + intros H. now exists [], p.
    + intros (p1 & p2 & -> & -> & H). exact H.
  - split.
    + intros (w & q & -> & Hw & H). apply IH in H.
      destruct H as (p1 & p2 & -> & H1 & H2).
      exists (w ++ p1), p2. rewrite app_assoc. split; [reflexivity|].
      split; [|assumption]. now exists w, p1.
    + intros (p1 & p2 & -> & (w & q & -> & Hw & H1) & H2).
      exists w, (q ++ p2). rewrite app_assoc. split; [reflexivity|].
      split; [assumption|]. apply IH. now exists q, p2.
Qed.

Lemma GlobMatch_chars a : forall p, GlobMatch (List.map TChar a) p <-> p = a.
Proof.
  induction a as [|c a IH]; intros p; simpl; [tauto|]. split.
  - intros (w & q & -> & -> & H). apply IH in H. now subst.
  - intros ->. exists [c], a. repeat split. now apply IH.
Qed.

Lemma literal_glob_char c : literal c = true -> glob_char c = true.
Proof. unfold glob_char. now intros ->. Qed.

Lemma literal_plain a : forallb literal a = true -> plain a = true.
Proof.
  unfold plain. rewrite !forallb_forall. intros H c Hc.
  apply literal_glob_char, H, Hc.
Qed.

Lemma plain_app a b : plain (a ++ b) = plain a && plain b.
Proof. apply forallb_app. Qed.

Lemma single_token_literal c : literal c = true -> single_token c = TChar c.
Proof.
  intros H. pose proof (literal_not_syntax _ H) as N. unfold single_token.
  rewrite !N by (simpl; tauto). reflexivity.
Qed.

Lemma starts_globstar_literal c g :
  literal c = true -> starts_globstar (c :: g) = false.
Proof.
  intros H. pose proof (literal_not_syntax _ H) as N.
  destruct g as [|c1 [|c2 g]]; simpl; try reflexivity.
  rewrite N by (simpl; tauto). reflexivity.
Qed.

(** Literal characters are scanned one by one, whatever follows. *)
Lemma tokenize_literal_app a g :
  forallb literal a = true ->
  tokenize (a ++ g) = List.map TChar a ++ tokenize g.
Proof.
  induction a as [|c a IH]; intros H; [reflexivity|].
  simpl in H. apply andb_true_iff in H. destruct H as [Hc Ha].
  change ((c :: a) ++ g) with (c :: (a ++ g)).
  rewrite tokenize_single by now apply starts_globstar_literal.
  rewrite (single_token_literal _ Hc), IH by assumption. reflexivity.
Qed.

Lemma tokenize_literal a :
  forallb literal a = true -> tokenize a = List.map TChar a.
Proof.
  intros H. rewrite <- (app_nil_r a) at 1.
  rewrite tokenize_literal_app by assumption. simpl. apply app_nil_r.
Qed.

(** A glob without any character of the regular-expression syntax
    matches itself and nothing else. *)
Lemma glob_matches_literal g p :
  literal_string g = true ->
  exists b, glob_matches g p = Returns b /\ (b = true <-> p = g).
Proof.
  intros L. destruct (glob_matches_plain g p (literal_plain _ L)) as (b & E & H).
  exists b. split; [assumption|]. rewrite H, (tokenize_literal _ L), GlobMatch_chars.
  split; [apply chars_inj | now intros ->].
Qed.

End PlainGlobs.

(** ** The set objects and the factories *)

Section Sets.

Lemma JsArray_filter_acc {A : Type} (callback : A -> bool) l :
  forall kept,
    fold_left (fun kept x => if callback x then kept ++ [x] else kept) l kept
    = kept ++ List.filter callback l.
Proof.
  induction l as [|x l IH]; intros kept; simpl.
  - now rewrite app_nil_r.
  - rewrite IH. destruct (callback x); [|reflexivity].
    now rewrite <- app_assoc.
Qed.

Lemma JsArray_filter_spec {A : Type} (callback : A -> bool) l :
  JsArray.filter callback l = List.filter callback l.
Proof. unfold JsArray.filter. now rewrite JsArray_filter_acc. Qed.

Lemma subseq_filter {A : Type} (f : A -> bool) l :
  JsArray.subseq (List.filter f l) l.
Proof.
  induction l as [|x l IH]; simpl; [constructor|].
  destruct (f x); now constructor.
Qed.

Lemma filter_nothing {A : Type} (l : list A) : List.filter (fun _ => false) l = [].
Proof. induction l; simpl; auto. Qed.

Lemma instanceof_Set_fuel o n :
  chain_reaches (5 + n) Set_prototype (Some (proto_of o)) = instanceof_Set o.
Proof.
  destruct o; reflexivity.
Qed.

Lemma FileGlobSet_returns_set globs s :
  FileGlobSet globs = Returns s -> isaSet (VObject s) = true.
Proof.
  unfold FileGlobSet. destruct (JsArray.map _ globs); simpl; try discriminate.
  now intros [= <-].
Qed.

Lemma makeSet_returns_set xs s :
  makeSet xs = Returns s -> isaSet (VObject s) = true.
Proof.
  destruct xs as [ | g | o | elems ]; simpl.
  - now intros [= <-].
  - apply FileGlobSet_returns_set.
  - destruct (instanceof_Set o) eqn:E; [now intros [= <-]|].
    apply FileGlobSet_returns_set.
  - apply FileGlobSet_returns_set.
Qed.

End Sets.

(** ** How the scan splits a pattern around one token *)

Section Tokens.

(** A [**/] is scanned as one token wherever it stands, and what stands
    before and after is scanned as it is alone. *)
Lemma tokenize_globstar_app post :
  forall pre,
    tokenize (pre ++ "*" :: "*" :: "/" :: post)
    = tokenize pre ++ TGlobstar :: tokenize post.
Proof.
  intros pre. induction pre as [ | g3 IH | ch g1 Hs IH ] using glob_ind.
  - reflexivity.
  - change (("*" :: "*" :: "/" :: g3) ++ "*" :: "*" :: "/" :: post)
      with ("*" :: "*" :: "/" :: (g3 ++ "*" :: "*" :: "/" :: post)).
    now rewrite !tokenize_globstar, IH.
  - assert (S1 : starts_globstar (ch :: g1 ++ "*" :: "*" :: "/" :: post) = false).
    { destruct g1 as [|c1 [|c2 g1]]; simpl in *.
      - apply andb_false_r.
      - apply andb_false_r.
      - exact Hs. }
    rewrite <- app_comm_cons.
    now rewrite (tokenize_single _ _ S1), (tokenize_single _ _ Hs), IH.
Qed.

Lemma ends_with_star_cons ch g :
  g <> [] -> ends_with_star (ch :: g) = ends_with_star g.
Proof. destruct g; [congruence | reflexivity]. Qed.

(** A [*] is scanned as a token of its own when it is not the first
    star of a [**/] (no [*/] follows) nor the second (no star before and
    separator after). *)
Lemma tokenize_star_app post :
  starts_globstar ("*" :: post) = false ->
  forall pre,
    (ends_with_star pre && eq_char (hd_error post) "/") = false ->
    tokenize (pre ++ "*" :: post) = tokenize pre ++ TStar :: tokenize post.
Proof.
  intros Hp pre.
  induction pre as [ | g3 IH | ch g1 Hs IH ] using glob_ind; intros He.
  - simpl app. now rewrite (tokenize_single _ _ Hp).
  - change (("*" :: "*" :: "/" :: g3) ++ "*" :: post)
      with ("*" :: "*" :: "/" :: (g3 ++ "*" :: post)).
    rewrite !tokenize_globstar, IH; [reflexivity|].
    destruct g3; [reflexivity | exact He].
  - assert (S1 : starts_globstar (ch :: g1 ++ "*" :: post) = false).
    { destruct g1 as [|c1 [|c2 g1]]; simpl in *.
      - destruct post as [|c post]; [reflexivity|]. simpl in He.
        destruct (ch =? "*")%char; [|reflexivity]. simpl in *. now rewrite He.
      - apply andb_false_r.
      - exact Hs. }
    rewrite <- app_comm_cons.
    rewrite (tokenize_single _ _ S1), (tokenize_single _ _ Hs), IH; [reflexivity|].
    destruct g1; [reflexivity|]. now rewrite ends_with_star_cons in He.
Qed.

(** A doubled [*] before anything but a [/] is scanned as two single
    stars, whatever precedes it, and what precedes is scanned in the
    same way when only one star is left. *)
Lemma tokenize_dangling post :
  starts_globstar ("*" :: "*" :: post) = false ->
  forall pre,
  exists T,
    tokenize (pre ++ "*" :: "*" :: post) = T ++ TStar :: tokenize ("*" :: post)
    /\ tokenize (pre ++ "*" :: post) = T ++ tokenize ("*" :: post).
Proof.
  intros Hp pre.
  induction pre as [ | g3 IH | ch g1 Hs IH ] using glob_ind.
  - exists []. split; [|reflexivity]. simpl app.
    now rewrite (tokenize_single _ _ Hp).
  - destruct IH as (T & E1 & E2). exists (TGlobstar :: T).
    simpl app. now rewrite !tokenize_globstar, E1, E2.
  - destruct IH as (T & E1 & E2). exists (single_token ch :: T).
    assert (S2 : starts_globstar (ch :: g1 ++ "*" :: "*" :: post) = false).
    { destruct g1 as [|c1 [|c2 g1]]; simpl in *.
      - apply andb_false_r.
      - apply andb_false_r.
      - exact Hs. }
    assert (S1 : starts_globstar (ch :: g1 ++ "*" :: post) = false).
    { destruct g1 as [|c1 [|c2 g1]]; simpl in *.
      - destruct post as [|c post]; [reflexivity|].
        simpl in Hp. rewrite Hp. apply andb_false_r.
      - apply andb_false_r.
      - exact Hs. }
    simpl app. now rewrite (tokenize_single _ _ S2), (tokenize_single _ _ S1), E1, E2.
Qed.

Lemma GlobMatch_star_star ts p :
  GlobMatch (TStar :: TStar :: ts) p <-> GlobMatch (TStar :: ts) p.
Proof.
  simpl. split.
  - intros (u1 & q & -> & H1 & (u2 & q' & -> & H2 & H)).
    exists (u1 ++ u2), q'. rewrite app_assoc. split; [reflexivity|].
    split; [now apply no_separator_app | assumption].
  - intros (u & q & -> & Hu & H).
    exists [], (u ++ q). split; [reflexivity|].
    split; [apply no_separator_nil|]. now exists u, q.
Qed.

Lemma prefix_slash post :
  String.prefix "/" post = false ->
  starts_globstar ("*" :: "*" :: chars post) = false.
Proof.
  destruct post as [|c post]; [reflexivity|]. simpl.
  destruct (ascii_dec "/" c) as [<- | N].
  - now destruct post.
  - intros _. apply Ascii.eqb_neq. congruence.
Qed.

Lemma prefix_star_slash post :
  String.prefix "*/" post = false ->
  starts_globstar ("*" :: chars post) = false.
Proof.
  destruct post as [|c1 [|c2 post]]; try reflexivity. simpl.
  destruct (ascii_dec "*" c1) as [<- | N1].
  - destruct (ascii_dec "/" c2) as [<- | N2].
    + now destruct post.
    + intros _. apply Ascii.eqb_neq. congruence.
  - intros _. apply andb_false_iff. left. apply Ascii.eqb_neq. congruence.
Qed.

Lemma prefix_slash_hd post :
  eq_char (hd_error (chars post)) "/" = String.prefix "/" post.
Proof.
  destruct post as [|c post]; [reflexivity|].
  cbn [String.prefix chars list_ascii_of_string hd_error eq_char].
  destruct (ascii_dec "/" c) as [<- | N].
  - now destruct post.
  - apply Ascii.eqb_neq. congruence.
Qed.

Lemma segments_empty n : segments (repeat [] n) = repeat "/" n.
Proof.
  unfold segments. induction n as [|n IH]; simpl; [reflexivity | now rewrite IH].
Qed.

(** On a plain glob, the answer [true] of the matcher and the documented
    meaning of the tokens are the same thing. *)
Lemma glob_matches_true_plain g p :
  plain (chars g) = true ->
  glob_matches g p = Returns true <-> GlobMatch (tokenize (chars g)) (chars p).
Proof.
  intros P. destruct (glob_matches_plain g p P) as (b & E & H).
  rewrite E, <- H. split; [now intros [= ->] | now intros ->].
Qed.

Lemma GlobMatch_token_between ts1 t ts2 p :
  GlobMatch (ts1 ++ t :: ts2) p <->
  exists p1 w p2, p = p1 ++ w ++ p2
                  /\ GlobMatch ts1 p1 /\ token_matches t w /\ GlobMatch ts2 p2.
Proof.
  rewrite GlobMatch_app. simpl. split.
  - intros (p1 & q & -> & H1 & (w & p2 & -> & Hw & H2)). now exists p1, w, p2.
  - intros (p1 & w & p2 & -> & H1 & Hw & H2). exists p1, (w ++ p2).
    repeat split; auto. now exists w, p2.
Qed.

(** The matcher of a plain glob around a [**/]. *)
Lemma glob_matches_around_globstar pre post p :
  plain (chars pre) = true -> plain (chars post) = true ->
  exists r,
    glob_matches (pre ++ "**/" ++ post) p = Returns r
    /\ (r = true <->
        exists p1 segs p2,
          chars p = chars p1 ++ segments segs ++ chars p2
          /\ glob_matches pre p1 = Returns true
          /\ Forall no_separator segs
          /\ glob_matches post p2 = Returns true).
Proof.
  intros Hpre Hpost.
  assert (Et : tokenize (chars (pre ++ "**/" ++ post))
               = tokenize (chars pre) ++ TGlobstar :: tokenize (chars post)).
  { rewrite !chars_append. apply tokenize_globstar_app. }
  destruct (glob_matches_plain (pre ++ "**/" ++ post) p) as (r & E & H).
  { rewrite !chars_append, !plain_app, Hpre, Hpost. reflexivity. }
  exists r. split; [assumption|].
  rewrite H, Et, GlobMatch_token_between. split.
  - intros (l1 & w & l2 & Ep & H1 & (segs & Hs & ->) & H2).
    exists (string_of_list_ascii l1), segs, (string_of_list_ascii l2).
    rewrite !glob_matches_true_plain, !chars_of_list by assumption. auto.
  - intros (p1 & segs & p2 & Ep & H1 & Hs & H2).
    rewrite glob_matches_true_plain in H1, H2 by assumption.
    exists (chars p1), (segments segs), (chars p2).
    repeat split; auto. now exists segs.
Qed.

End Tokens.

(** ** The examples of the documentation *)

Section Examples.

Example question_mark_examples :
  glob_matches "a/?" "a/bc" = Returns false
  /\ glob_matches "a/?" "a/b" = Returns true
  /\ glob_matches "a/?" "a/" = Returns false.
Proof. evaluate. Qed.

Example literal_dot_examples :
  glob_matches "a.txt" "a.txt" = Returns true
  /\ glob_matches "a.txt" "axtxt" = Returns false.
Proof. evaluate. Qed.

Example empty_glob_examples :
  glob_matches "" "" = Returns true /\ glob_matches "" "a" = Returns false.
Proof. evaluate. Qed.

Example complement_example :
  (s <- makeCompliment (VArray [VString "**/*.js"]) (VArray [VString "**/test/*"]) ;;
   Returns (matches s "src/test/a.js", matches s "src/lib/a.js"))
  = Returns (false, true).
Proof. evaluate. Qed.

Example union_example :
  (s <- makeUnion [VArray [VString "*.js"]; VArray [VString "*.json"]] ;;
   Returns (matches s "x.json", matches s "x.txt"))
  = Returns (true, false).
Proof. evaluate. Qed.

Example empty_set_example :
  (s <- makeSet VUndefined ;;
   Returns (matches s "a", filter s ["a"; "b"]%string))
  = Returns (false, []).
Proof. evaluate. Qed.

Example node_terminal_example :
  (m <- make (VString "node-terminal/*") ;;
   Returns (filter m ["package.json"; "node-terminal/docs.txt";
                      "node-terminal/examples";
                      "node-terminal/examples/clear.js"]%string))
  = Returns ["node-terminal/docs.txt"; "node-terminal/examples"]%string.
Proof. evaluate. Qed.

End Examples.

(** ** The claims of the documentation *)

(** C1, at the input where the code departs from it.  The claim: a glob
    without [*], [?] and [.] is matched by the path equal to it and by no
    other.  The glob [a+b] has none of the three characters; its [+]
    reaches the regular expression unescaped and repeats the [a], so the
    matcher rejects the path [a+b] and accepts the path [aab]. *)
Theorem plus_sign_repeats :
  FileGlob_pattern (chars "a+b") = chars "^a+b$"
  /\ glob_matches "a+b" "a+b" = Returns false
  /\ glob_matches "a+b" "aab" = Returns true.
Proof. evaluate. Qed.

(** C2, at the input where the code departs from it.  The claim:
    building a matcher never throws, whatever the pattern string.  On the
    glob made of one opening parenthesis the pattern text is [^($], which
    [new RegExp] rejects, and [make] throws the SyntaxError. *)
Theorem open_parenthesis_throws :
  FileGlob_pattern (chars "(") = chars "^($"
  /\ make (VString "(") = Throws SyntaxError.
Proof. evaluate. Qed.

(** C3 does not hold of every value that has [matches] and [filter]: the
    matcher returned by [make("a")] has both ([matches] accepts the path
    [a], [filter] keeps it), yet [makeSet] does not return it; it returns
    a new set, which does not even accept [a]. *)
Lemma makeSet_rewraps_a_matcher :
  exists x s,
    make (VString "a") = Returns x
    /\ matches x "a" = true
    /\ filter x ["a"; "b"]%string = ["a"]%string
    /\ makeSet (VObject x) = Returns s
    /\ s <> x
    /\ matches s "a" = false.
Proof.
  eexists _, _. split; [vm_compute; reflexivity|].
  split; [vm_compute; reflexivity|].
  split; [vm_compute; reflexivity|].
  split; [vm_compute; reflexivity|].
  split; [discriminate | vm_compute; reflexivity].
Qed.

(** C3, amended.  [makeSet] returns unchanged every object that is an
    instance of the library's [Set]; in particular, applying [makeSet]
    to what [makeSet] returned gives the same set again.  The instances
    are the empty set, the sets of patterns, the unions and the
    complements: every object of the library but the matchers. *)
Theorem makeSet_keeps_sets :
  (forall o, isaSet (VObject o) = true -> makeSet (VObject o) = Returns o)
  /\ (forall xs s, makeSet xs = Returns s -> makeSet (VObject s) = Returns s)
  /\ (forall o, isaSet (VObject o)
                = match o with FileGlobObj _ => false | _ => true end).
Proof.
  assert (K : forall o, isaSet (VObject o) = true -> makeSet (VObject o) = Returns o).
  { intros o H. unfold makeSet. now rewrite H. }
  split; [exact K|]. split.
  - intros xs s E. apply K. eapply makeSet_returns_set, E.
  - intros o. destruct o; reflexivity.
Qed.

Lemma makeSet_keeps_sets_witness :
  isaSet (VObject (UnionObj [EmptySet])) = true
  /\ makeSet (VObject (UnionObj [EmptySet])) = Returns (UnionObj [EmptySet])
  /\ exists s, makeSet (VArray [VString "*.js"]) = Returns s
               /\ makeSet (VObject s) = Returns s.
Proof.
  split; [reflexivity|].
  split; [apply (proj1 makeSet_keeps_sets); reflexivity|].
  eexists. split; [vm_compute; reflexivity|].
  apply (proj1 (proj2 makeSet_keeps_sets) (VArray [VString "*.js"])).
  vm_compute; reflexivity.
Defined.

(** C4, at inputs where the code departs from it.  The claim: in a glob
    pattern the token [**/] stands for zero or more path segments, each
    followed by a separator, none included.  In the glob [x$**/b] the
    token follows a dollar sign, which reaches the regular expression
    unescaped and asserts the end of the path there: the matcher rejects
    the path [x$b], which has no segment at the token, and the path
    [x$y/b], which has one.  In the glob [([**/]] the bracket reaches
    the regular expression unescaped and opens a class that takes the
    first characters of the text of the token: the matcher accepts the
    path [//]], which does not start as the glob does, and rejects the
    path [([x/]], which has one segment at the token. *)
Theorem globstar_among_unescaped_characters :
  FileGlob_pattern (chars "x$**/b") = chars "^x$([^/]*/)*b$"
  /\ glob_matches "x$**/b" "x$b" = Returns false
  /\ glob_matches "x$**/b" "x$y/b" = Returns false
  /\ FileGlob_pattern (chars "([**/]") = chars "^([([^/]*/)*]$"
  /\ glob_matches "([**/]" "//]" = Returns true
  /\ glob_matches "([**/]" "([x/]" = Returns false.
Proof. evaluate. Qed.

(** C5, at the input where the code departs from it.  The claim: a [*]
    that is not part of a [**/] stands for characters other than the
    separator and never matches across a segment boundary.  In the glob
    [[*]] the opening bracket reaches the regular expression unescaped
    and opens a class, which the bracket of the text of the star, its
    circumflex and its separator fill and the closing bracket of that
    text ends: the pattern reads as any number of the characters [[],
    [^] and [/], then a closing bracket.  The matcher accepts the path
    [//]], two separators matched where the star stands, and rejects the
    path [[a]], a bracket, a run without separator and a bracket. *)
Theorem star_between_brackets :
  FileGlob_pattern (chars "[*]") = chars "^[[^/]*]$"
  /\ glob_matches "[*]" "//]" = Returns true
  /\ glob_matches "[*]" "[a]" = Returns false.
Proof. evaluate. Qed.

(** C6 does not hold of every doubled star that no [/] follows.  In
    [***/] the first two stars are followed by a star: the scan takes
    the first star alone and the next two with the separator, and the
    matcher accepts the path [a]; with those two stars replaced by one
    the glob is [**/], whose matcher rejects [a].  And between brackets,
    which reach the regular expression as they are, the text of the
    first star closes the class the bracket opened: the matcher of
    [[**]] accepts the path [a]] and that of [[*]] rejects it. *)
Lemma doubled_star_before_globstar :
  FileGlob_pattern (chars "***/") = chars "^[^/]*([^/]*/)*$"
  /\ FileGlob_pattern (chars "**/") = chars "^([^/]*/)*$"
  /\ glob_matches "***/" "a" = Returns true
  /\ glob_matches "**/" "a" = Returns false
  /\ glob_matches "[**]" "a]" = Returns true
  /\ glob_matches "[*]" "a]" = Returns false.
Proof. evaluate. Qed.

(** C6, amended.  In a glob made of [*], [?], [.] and literal
    characters, a doubled [*] that is followed neither by [/] nor by
    [*/] can be replaced by a single [*]: the two matchers give the same
    answer on every path. *)
Theorem dangling_doubled_star :
  forall pre post : string,
    plain (chars pre) = true -> plain (chars post) = true ->
    String.prefix "/" post = false -> String.prefix "*/" post = false ->
    forall p,
      glob_matches (pre ++ "**" ++ post) p = glob_matches (pre ++ "*" ++ post) p
      /\ exists r, glob_matches (pre ++ "**" ++ post) p = Returns r.
Proof.
  intros pre post Hpre Hpost N1 N2 p.
  destruct (glob_matches_plain (pre ++ "**" ++ post) p) as (r2 & E2 & H2).
  { rewrite !chars_append, !plain_app, Hpre, Hpost. reflexivity. }
  destruct (glob_matches_plain (pre ++ "*" ++ post) p) as (r1 & E1 & H1).
  { rewrite !chars_append, !plain_app, Hpre, Hpost. reflexivity. }
  split; [|now exists r2]. rewrite E1, E2. f_equal.
  apply eq_true_iff_eq. rewrite H1, H2, !chars_append. simpl app.
  destruct (tokenize_dangling (chars post) (prefix_slash post N1) (chars pre))
    as (T & -> & ->).
  rewrite (tokenize_single _ _ (prefix_star_slash post N2)).
  rewrite !GlobMatch_app.
  split; intros (p1 & p2 & Ep & G1 & G2); exists p1, p2;
    (split; [assumption|]); (split; [assumption|]);
    now apply GlobMatch_star_star.
Qed.

Lemma dangling_doubled_star_witness :
  glob_matches "a/**.js" "a/b.js" = glob_matches "a/*.js" "a/b.js"
  /\ exists r, glob_matches "a/**.js" "a/b.js" = Returns r.
Proof.
  exact (dangling_doubled_star "a/" ".js" eq_refl eq_refl eq_refl eq_refl "a/b.js").
Defined.

(** C7.  For every object of the library and every list of paths,
    [filter] returns the sub-sequence of the list, in the original order,
    made of exactly the paths [matches] accepts. *)
Theorem filter_keeps_the_matching_paths :
  forall (o : object) (L : list string),
    filter o L = List.filter (fun path => matches o path) L
    /\ JsArray.subseq (filter o L) L
    /\ (forall path, In path (filter o L) <-> In path L /\ matches o path = true).
Proof.
  intros o L.
  assert (E : filter o L = List.filter (fun path => matches o path) L).
  { destruct o; simpl; try apply JsArray_filter_spec.
    symmetry. apply filter_nothing. }
  rewrite E. split; [reflexivity|]. split; [apply subseq_filter|].
  intros path. apply filter_In.
Qed.

(** C8.  The object [make] returns is not an instance of the library's
    [Set]; [makeSet] therefore does not return it but hands it to
    [FileGlobSet] as a one-element pattern list.  The object has no
    [length], the scan does not run, and the new set holds the one
    matcher of the pattern text [^$]. *)
Theorem matcher_is_not_a_set :
  forall (g : string) (m : object),
    make (VString g) = Returns m ->
    isaSet (VObject m) = false
    /\ makeSet (VObject m) = FileGlobSet [VObject m]
    /\ makeSet (VObject m)
       = Returns (FileGlobSetObj [FileGlobObj (Seq (Seq Empty AssertStart) AssertEnd)])
    /\ FileGlobSetObj [FileGlobObj (Seq (Seq Empty AssertStart) AssertEnd)] <> m.
Proof.
  intros g m H. unfold make, FileGlob in H.
  destruct (RegExp _) as [re| |]; simpl in H; try discriminate.
  injection H as <-. split; [reflexivity|]. split; [reflexivity|].
  split; [reflexivity | discriminate].
Qed.

Lemma matcher_is_not_a_set_witness :
  exists m,
    make (VString "a") = Returns m
    /\ isaSet (VObject m) = false
    /\ makeSet (VObject m)
       = Returns (FileGlobSetObj [FileGlobObj (Seq (Seq Empty AssertStart) AssertEnd)]).
Proof.
  eexists. split; [vm_compute; reflexivity|].
  split; eapply (matcher_is_not_a_set "a"); vm_compute; reflexivity.
Defined.


(** C10.  [makeUnion] without argument returns the union of no set: its
    [matches] rejects every path and its [filter] returns the empty list,
    as those of the empty set do. *)
Theorem makeUnion_of_nothing :
  makeUnion [] = Returns (UnionObj [])
  /\ (forall path, matches (UnionObj []) path = false)
  /\ (forall L, filter (UnionObj []) L = [])
  /\ (forall path, matches (UnionObj []) path = matches EmptySet path)
  /\ (forall L, filter (UnionObj []) L = filter EmptySet L).
Proof.
  assert (F : forall L, filter (UnionObj []) L = []).
  { intros L. simpl. rewrite JsArray_filter_spec. apply filter_nothing. }
  repeat split; auto.
Qed.

(** * Further properties of the library *)

Import Measures.

(** ** One token between two plain patterns *)

Section Between.

(** A character other than the star and the separator is scanned on its
    own, and what stands before and after it as it is alone. *)
Lemma tokenize_single_app c post :
  (c =? "*")%char = false -> (c =? "/")%char = false ->
  forall pre,
    tokenize (pre ++ c :: post) = tokenize pre ++ single_token c :: tokenize post.
Proof.
  intros Hs Hl pre.
  assert (S0 : forall g, starts_globstar (c :: g) = false).
  { intros g. destruct g as [|c1 [|c2 g]]; simpl; try reflexivity. now rewrite Hs. }
  induction pre as [ | g3 IH | ch g1 Hg IH ] using glob_ind.
  - simpl app. now rewrite (tokenize_single _ _ (S0 post)).
  - change (("*" :: "*" :: "/" :: g3) ++ c :: post)
      with ("*" :: "*" :: "/" :: (g3 ++ c :: post)).
    now rewrite !tokenize_globstar, IH.
  - assert (S1 : starts_globstar (ch :: g1 ++ c :: post) = false).
    { destruct g1 as [|c1 [|c2 g1]].
      - destruct post as [|c' post]; [reflexivity|]. simpl.
        rewrite Hs. now rewrite andb_false_r.
      - simpl. rewrite Hl. apply andb_false_r.
      - exact Hg. }
    rewrite <- app_comm_cons.
    now rewrite (tokenize_single _ _ S1), (tokenize_single _ _ Hg), IH.
Qed.

(** The matcher of a plain glob, read around one of its tokens. *)
Lemma glob_matches_between pre t post g p :
  plain (chars pre) = true -> plain (chars post) = true ->
  plain (chars g) = true ->
  tokenize (chars g) = tokenize (chars pre) ++ t :: tokenize (chars post) ->
  exists r,
    glob_matches g p = Returns r
    /\ (r = true <->
        exists p1 w p2,
          chars p = chars p1 ++ w ++ chars p2
          /\ glob_matches pre p1 = Returns true
          /\ token_matches t w
          /\ glob_matches post p2 = Returns true).
Proof.
  intros Hpre Hpost Hg Et.
  destruct (glob_matches_plain g p Hg) as (r & E & H).
  exists r. split; [assumption|].
  rewrite H, Et, GlobMatch_token_between. split.
  - intros (l1 & w & l2 & Ep & H1 & Hw & H2).
    exists (string_of_list_ascii l1), w, (string_of_list_ascii l2).
    rewrite !glob_matches_true_plain, !chars_of_list by assumption. auto.
  - intros (p1 & w & p2 & Ep & H1 & Hw & H2).
    rewrite glob_matches_true_plain in H1, H2 by assumption.
    exists (chars p1), w, (chars p2). auto.
Qed.

Lemma plain_between mid pre post :
  plain (chars mid) = true -> plain (chars pre) = true -> plain (chars post) = true ->
  plain (chars (pre ++ mid ++ post)) = true.
Proof.
  intros Hm Hpre Hpost. now rewrite !chars_append, !plain_app, Hpre, Hm, Hpost.
Qed.

End Between.

(** X1.  In a plain glob, a [?] stands for exactly one character other
    than the separator: the matcher accepts exactly the paths made of a
    path accepted by what precedes the [?], one such character, and a
    path accepted by what follows it. *)
Theorem question_mark_matches_one_character :
  forall pre post : string,
    plain (chars pre) = true -> plain (chars post) = true ->
    forall p,
      exists r,
        glob_matches (pre ++ "?" ++ post) p = Returns r
        /\ (r = true <->
            exists p1 ch p2,
              chars p = chars p1 ++ ch :: chars p2
              /\ glob_matches pre p1 = Returns true
              /\ ch <> "/"
              /\ glob_matches post p2 = Returns true).
Proof.
  intros pre post Hpre Hpost p.
  destruct (glob_matches_between pre TQuestion post (pre ++ "?" ++ post) p Hpre Hpost)
    as (r & E & H).
  - now apply (plain_between "?").
  - rewrite !chars_append.
    apply (tokenize_single_app "?" (chars post) eq_refl eq_refl).
  - exists r. split; [assumption|]. rewrite H. split.
    + intros (p1 & w & p2 & Ep & H1 & (ch & Hc & ->) & H2). now exists p1, ch, p2.
    + intros (p1 & ch & p2 & Ep & H1 & Hc & H2). exists p1, [ch], p2.
      repeat split; auto. now exists ch.
Qed.

Lemma question_mark_matches_one_character_witness :
  glob_matches "a/?" "a/b" = Returns true
  /\ glob_matches "a/?" "a/bc" = Returns false
  /\ glob_matches "a/?" "a/" = Returns false.
Proof.
  pose proof (question_mark_matches_one_character "a/" "" eq_refl eq_refl) as H.
  assert (No : forall p : string,
             (forall ch, chars p <> chars "a/" ++ [ch]) ->
             glob_matches "a/?" p = Returns false).
  { intros p N. destruct (H p) as (r & E & I). simpl in E. rewrite E. f_equal.
    destruct r; [|reflexivity]. exfalso.
    destruct (proj1 I eq_refl) as (p1 & ch & p2 & Ep & H1 & Hc & H2).
    destruct (glob_matches_literal "a/" p1 eq_refl) as (b1 & E1 & I1).
    destruct (glob_matches_literal "" p2 eq_refl) as (b2 & E2 & I2).
    rewrite H1 in E1. rewrite H2 in E2.
    injection E1 as <-. injection E2 as <-.
    rewrite (proj1 I1 eq_refl), (proj1 I2 eq_refl) in Ep.
    apply (N ch Ep). }
  split; [|split].
  - destruct (H "a/b"%string) as (r & E & I). simpl in E. rewrite E. f_equal.
    apply I. exists "a/"%string, "b"%char, ""%string.
    split; [reflexivity|]. split; [vm_compute; reflexivity|].
    split; [discriminate | vm_compute; reflexivity].
  - apply No. intros ch C. discriminate C.
  - apply No. intros ch C. discriminate C.
Defined.

(** X2.  In a plain glob, a [.] stands for a dot and for no other
    character: the matcher accepts exactly the paths made of a path
    accepted by what precedes the dot, a dot, and a path accepted by
    what follows it. *)
Theorem dot_matches_a_dot :
  forall pre post : string,
    plain (chars pre) = true -> plain (chars post) = true ->
    forall p,
      exists r,
        glob_matches (pre ++ "." ++ post) p = Returns r
        /\ (r = true <->
            exists p1 p2,
              chars p = chars p1 ++ "." :: chars p2
              /\ glob_matches pre p1 = Returns true
              /\ glob_matches post p2 = Returns true).
Proof.
  intros pre post Hpre Hpost p.
  destruct (glob_matches_between pre TDot post (pre ++ "." ++ post) p Hpre Hpost)
    as (r & E & H).
  - now apply (plain_between ".").
  - rewrite !chars_append.
    apply (tokenize_single_app "." (chars post) eq_refl eq_refl).
  - exists r. split; [assumption|]. rewrite H. split.
    + intros (p1 & w & p2 & Ep & H1 & -> & H2). now exists p1, p2.
    + intros (p1 & p2 & Ep & H1 & H2). exists p1, ["."], p2.
      repeat split; auto.
Qed.

Lemma dot_matches_a_dot_witness :
  glob_matches "a.txt" "a.txt" = Returns true
  /\ glob_matches "a.txt" "axtxt" = Returns false.
Proof.
  pose proof (dot_matches_a_dot "a" "txt" eq_refl eq_refl) as H.
  split.
  - destruct (H "a.txt"%string) as (r & E & I). simpl in E. rewrite E. f_equal.
    apply I. exists "a"%string, "txt"%string.
    split; [reflexivity|]. split; vm_compute; reflexivity.
  - destruct (H "axtxt"%string) as (r & E & I). simpl in E. rewrite E. f_equal.
    destruct r; [|reflexivity]. exfalso.
    destruct (proj1 I eq_refl) as (p1 & p2 & Ep & H1 & H2).
    destruct (glob_matches_literal "a" p1 eq_refl) as (b1 & E1 & I1).
    rewrite H1 in E1. injection E1 as <-.
    rewrite (proj1 I1 eq_refl) in Ep. discriminate Ep.
Defined.

(** ** What a plain glob preserves of the paths it accepts *)

Section Invariants.

Lemma separators_app u v : separators (u ++ v) = separators u + separators v.
Proof. unfold separators. now rewrite filter_app, length_app. Qed.

Lemma separators_cons c u :
  separators (c :: u) = (if (c =? "/")%char then 1 else 0) + separators u.
Proof. unfold separators. simpl. now destruct (c =? "/")%char. Qed.

Lemma no_separator_separators u : no_separator u -> separators u = 0.
Proof.
  induction u as [|c u IH]; intros H; [reflexivity|].
  apply no_separator_cons in H. destruct H as [N H].
  rewrite separators_cons, (IH H). apply Ascii.eqb_neq in N. now rewrite N.
Qed.

Lemma token_matches_separators t w :
  t <> TGlobstar -> token_matches t w -> separators w = token_separators t.
Proof.
  destruct t; simpl; intros N H.
  - congruence.
  - now apply no_separator_separators.
  - destruct H as (ch & Hc & ->). rewrite separators_cons.
    apply Ascii.eqb_neq in Hc. now rewrite Hc.
  - subst. reflexivity.
  - subst. rewrite separators_cons. unfold separators. simpl. lia.
Qed.

Lemma GlobMatch_separators ts :
  Forall (fun t => t <> TGlobstar) ts ->
  forall p, GlobMatch ts p ->
            separators p = list_sum (List.map token_separators ts).
Proof.
  induction 1 as [|t ts Ht Hts IH]; intros p G; simpl in *.
  - now subst.
  - destruct G as (w & q & -> & Hw & G).
    now rewrite separators_app, (token_matches_separators _ Ht Hw), (IH _ G).
Qed.

Lemma single_token_separators ch :
  single_token ch <> TGlobstar
  /\ token_separators (single_token ch) = if (ch =? "/")%char then 1 else 0.
Proof.
  unfold single_token.
  destruct (ch =? "*")%char eqn:E1.
  { apply Ascii.eqb_eq in E1. subst. split; [discriminate | reflexivity]. }
  destruct (ch =? "?")%char eqn:E2.
  { apply Ascii.eqb_eq in E2. subst. split; [discriminate | reflexivity]. }
  destruct (ch =? ".")%char eqn:E3.
  { apply Ascii.eqb_eq in E3. subst. split; [discriminate | reflexivity]. }
  split; [discriminate | reflexivity].
Qed.

(** A pattern in which [**/] does not occur is scanned without that
    token, and its separators are tokens of their own. *)
Lemma tokenize_without_globstar g :
  contains_globstar g = false ->
  Forall (fun t => t <> TGlobstar) (tokenize g)
  /\ list_sum (List.map token_separators (tokenize g)) = separators g.
Proof.
  induction g as [ | g3 IH | ch g1 Hs IH ] using glob_ind; intros H.
  - split; [constructor | reflexivity].
  - discriminate H.
  - change (contains_globstar (ch :: g1))
      with (starts_globstar (ch :: g1) || contains_globstar g1) in H.
    rewrite Hs in H. destruct (IH H) as [F E].
    destruct (single_token_separators ch) as [N T].
    rewrite (tokenize_single _ _ Hs). split; [now constructor|].
    simpl. now rewrite T, E, separators_cons.
Qed.

Lemma token_matches_length t w :
  is_star_token t = false -> token_matches t w -> List.length w = 1.
Proof.
  destruct t; simpl; intros N H; try discriminate.
  - now destruct H as (ch & _ & ->).
  - now subst.
  - now subst.
Qed.

Lemma GlobMatch_length ts :
  Forall (fun t => is_star_token t = false) ts ->
  forall p, GlobMatch ts p -> List.length p = List.length ts.
Proof.
  induction 1 as [|t ts Ht Hts IH]; intros p G; simpl in *.
  - now subst.
  - destruct G as (w & q & -> & Hw & G).
    now rewrite length_app, (token_matches_length _ _ Ht Hw), (IH _ G).
Qed.

(** A pattern without star is scanned one character at a time. *)
Lemma tokenize_without_star g :
  forallb (fun c => negb (c =? "*")%char) g = true ->
  Forall (fun t => is_star_token t = false) (tokenize g)
  /\ List.length (tokenize g) = List.length g.
Proof.
  induction g as [|ch g IH]; intros H; [split; [constructor | reflexivity]|].
  simpl in H. apply andb_true_iff in H. destruct H as [Hc Hg].
  apply negb_true_iff in Hc. destruct (IH Hg) as [F E].
  assert (Hs : starts_globstar (ch :: g) = false).
  { destruct g as [|c1 [|c2 g]]; simpl; try reflexivity. now rewrite Hc. }
  rewrite (tokenize_single _ _ Hs). split.
  - constructor; [|assumption]. unfold single_token. rewrite Hc.
    destruct (ch =? "?")%char; [reflexivity|]. now destruct (ch =? ".")%char.
  - simpl. now rewrite E.
Qed.

Lemma length_chars s : List.length (chars s) = String.length s.
Proof. induction s as [|c s IH]; simpl; [reflexivity | now rewrite <- IH]. Qed.

End Invariants.

(** X3.  A glob without any character of the regular-expression syntax
    (none of [\ ( ) [ | * + ? ^ $ . {]) is accepted by [new RegExp], and
    its matcher accepts the path equal to the glob and no other: the
    pattern is anchored at both ends and its characters stand for
    themselves. *)
Theorem literal_glob_matches_itself :
  forall g p : string,
    literal_string g = true ->
    FileGlob_pattern (chars g) = "^" :: chars g ++ ["$"]
    /\ exists r, glob_matches g p = Returns r /\ (r = true <-> p = g).
Proof.
  intros g p L. split; [|now apply glob_matches_literal].
  rewrite FileGlob_pattern_translate. unfold translate.
  rewrite (tokenize_literal _ L). f_equal. f_equal.
  induction (chars g) as [|c l IH]; simpl; [reflexivity | now rewrite IH].
Qed.

Lemma literal_glob_matches_itself_witness :
  exists r, glob_matches "node-terminal/LICENSE" "node-terminal/LICENSE" = Returns r
            /\ (r = true <-> "node-terminal/LICENSE"%string = "node-terminal/LICENSE"%string).
Proof.
  exact (proj2 (literal_glob_matches_itself
                  "node-terminal/LICENSE" "node-terminal/LICENSE" eq_refl)).
Defined.

(** X4.  A plain glob in which [**/] does not occur accepts only paths
    with as many separators as it has itself: neither [*] nor [?] nor
    [.] stands for a separator. *)
Theorem separators_are_preserved :
  forall g p : string,
    plain (chars g) = true ->
    contains_globstar (chars g) = false ->
    glob_matches g p = Returns true ->
    separators (chars p) = separators (chars g).
Proof.
  intros g p P N H. apply (glob_matches_true_plain g p P) in H.
  destruct (tokenize_without_globstar _ N) as [F E].
  now rewrite (GlobMatch_separators F _ H).
Qed.

Lemma separators_are_preserved_witness :
  separators (chars "src/lib/a.js") = separators (chars "src/*/?.js").
Proof.
  apply separators_are_preserved; vm_compute; reflexivity.
Defined.

(** X5.  A plain glob without star accepts only paths of its own
    length: each of its characters stands for one character. *)
Theorem star_free_glob_preserves_length :
  forall g p : string,
    plain (chars g) = true ->
    forallb (fun c => negb (c =? "*")%char) (chars g) = true ->
    glob_matches g p = Returns true ->
    String.length p = String.length g.
Proof.
  intros g p P N H. apply (glob_matches_true_plain g p P) in H.
  destruct (tokenize_without_star _ N) as [F E].
  now rewrite <- !length_chars, (GlobMatch_length F _ H).
Qed.

Lemma star_free_glob_preserves_length_witness :
  String.length "a/bcd.js" = String.length "a/b??.js".
Proof.
  apply star_free_glob_preserves_length; vm_compute; reflexivity.
Defined.

(** ** Globs that compile and globs that do not *)

Section Compiling.

Lemma text_of_chars a : flat_map token_text (List.map TChar a) = a.
Proof. induction a as [|c a IH]; simpl; [reflexivity | now rewrite IH]. Qed.

Lemma literal_tokens_ok a :
  forallb literal a = true -> Forall token_ok (List.map TChar a).
Proof.
  intros H. apply Forall_forall. intros t Ht. apply in_map_iff in Ht.
  destruct Ht as (c & <- & Hc). simpl.
  now apply (proj1 (forallb_forall _ _) H).
Qed.

(** Literal text leaves the parser where it found it: in the same
    disjunction, ready for the next term. *)
Lemma run_literal a f ps :
  forallb literal a = true ->
  exists f', run (PState MNormal f ps) a = Returns (PState MNormal f' ps).
Proof.
  intros H.
  destruct (run_tokens f ps (literal_tokens_ok _ H)) as (f' & R & _).
  rewrite text_of_chars in R. now exists f'.
Qed.

Lemma run_after_group_open b f ps :
  forallb literal b = true ->
  exists f',
    run (PState MGroupOpen f ps) (b ++ ["$"]) = Returns (PState MNormal f' ps).
Proof.
  intros H. destruct b as [|c b].
  - eexists. reflexivity.
  - simpl in H. apply andb_true_iff in H. destruct H as [Hc Hb].
    pose proof (@literal_not_syntax c Hc "?") as N.
    change ((c :: b) ++ ["$"]) with (c :: (b ++ ["$"])). cbn [run].
    unfold step at 1. cbn [pmode top parents].
    rewrite N by (simpl; tauto). rewrite (step_normal_literal _ _ _ Hc).
    cbn [bind]. rewrite run_app.
    destruct (@run_literal b (push_atom f (Char c)) ps Hb) as (f1 & ->).
    eexists. reflexivity.
Qed.

(** The text [FileGlob] builds around a character [c] that it passes
    through, between two literal strings. *)
Lemma FileGlob_pattern_around c a b :
  literal_string a = true -> literal_string b = true ->
  single_token c = TChar c ->
  FileGlob_pattern (chars (a ++ String c "" ++ b))
  = "^" :: chars a ++ (c :: chars b ++ ["$"]).
Proof.
  intros Ha Hb Hc.
  assert (Hs : starts_globstar (c :: chars b) = false).
  { unfold single_token in Hc. destruct (c =? "*")%char eqn:E; [discriminate|].
    destruct (chars b) as [|c1 [|c2 l]]; simpl; try reflexivity. now rewrite E. }
  rewrite FileGlob_pattern_translate. unfold translate.
  rewrite !chars_append. change (chars (String c "") ++ chars b) with (c :: chars b).
  rewrite (tokenize_literal_app _ _ Ha), (tokenize_single _ _ Hs), Hc.
  rewrite (tokenize_literal _ Hb), flat_map_app. simpl.
  rewrite !text_of_chars, <- app_assoc. reflexivity.
Qed.

Lemma some_existsb {A : Type} (f : A -> bool) l : JsArray.some f l = existsb f l.
Proof.
  induction l as [|x l IH]; simpl; [reflexivity|]. rewrite IH. now destruct (f x).
Qed.

Lemma mapM_Forall2 {A B : Type} (f : A -> outcome B) l :
  forall ys, mapM f l = Returns ys <-> Forall2 (fun x y => f x = Returns y) l ys.
Proof.
  induction l as [|x l IH]; intros ys; simpl.
  - split; [intros [= <-]; constructor | intros H; now inversion H].
  - split.
    + destruct (f x) as [y| |] eqn:E; simpl; try discriminate.
      destruct (mapM f l) as [ys'| |] eqn:E'; simpl; try discriminate.
      intros [= <-]. constructor; [assumption | now apply IH].
    + intros H. inversion H as [|? y ? ys' Hy Hys]; subst.
      rewrite Hy. simpl. apply IH in Hys. now rewrite Hys.
Qed.

Lemma mapM_returns {A B : Type} (f : A -> outcome B) l :
  (exists ys, mapM f l = Returns ys) <-> Forall (fun x => exists y, f x = Returns y) l.
Proof.
  induction l as [|x l IH]; simpl.
  - split; [constructor | now exists []].
  - split.
    + intros (ys & H). destruct (f x) as [y| |] eqn:E; simpl in H; try discriminate.
      destruct (mapM f l) as [ys'| |] eqn:E'; simpl in H; try discriminate.
      constructor; [now exists y | apply IH; now exists ys'].
    + intros H. inversion H as [|? ? (y & Hy) Hl]; subst.
      apply IH in Hl. destruct Hl as (ys & Hys).
      exists (y :: ys). now rewrite Hy, Hys.
Qed.

Lemma mapM_app {A B : Type} (f : A -> outcome B) l1 l2 :
  mapM f (l1 ++ l2)
  = (ys1 <- mapM f l1 ;; ys2 <- mapM f l2 ;; Returns (ys1 ++ ys2)).
Proof.
  induction l1 as [|x l1 IH]; simpl.
  - destruct (mapM f l2); reflexivity.
  - destruct (f x); simpl; try reflexivity. rewrite IH.
    destruct (mapM f l1); simpl; try reflexivity.
    destruct (mapM f l2); reflexivity.
Qed.

Lemma mapM_map {A B C : Type} (f : B -> outcome C) (g : A -> B) l :
  mapM f (List.map g l) = mapM (fun x => f (g x)) l.
Proof.
  induction l as [|x l IH]; simpl; [reflexivity | now rewrite IH].
Qed.

(** A set of patterns is built exactly when each pattern compiles. *)
Lemma makeSet_strings_returns gs :
  (exists s, makeSet (strings gs) = Returns s)
  <-> Forall (fun g => exists m, make (VString g) = Returns m) gs.
Proof.
  unfold strings, makeSet, FileGlobSet, JsArray.map, make. rewrite mapM_map.
  rewrite <- mapM_returns. split.
  - intros (s & H). destruct (mapM _ gs) as [ys| |]; try discriminate. now exists ys.
  - intros (ys & ->). eexists. reflexivity.
Qed.

End Compiling.

(** X6.  Plain globs always compile: for a list of globs made of [*],
    [?], [.] and characters without meaning in the syntax of regular
    expressions, [make] returns a matcher for each of them and [makeSet]
    returns a set for the list; neither throws. *)
Theorem plain_globs_compile :
  forall gs : list string,
    Forall (fun g => plain (chars g) = true) gs ->
    (forall g, In g gs -> exists m, make (VString g) = Returns m)
    /\ exists s, makeSet (strings gs) = Returns s.
Proof.
  intros gs H.
  assert (K : Forall (fun g => exists m, make (VString g) = Returns m) gs).
  { apply Forall_forall. intros g Hg. rewrite Forall_forall in H.
    eexists. apply make_plain, H, Hg. }
  split; [now apply Forall_forall | now apply makeSet_strings_returns].
Qed.

Lemma plain_globs_compile_witness :
  exists s, makeSet (strings ["**/*.js"; "node-terminal/test?/*"]%string) = Returns s.
Proof.
  apply (@plain_globs_compile ["**/*.js"; "node-terminal/test?/*"]%string).
  repeat constructor.
Defined.

(** X7.  A parenthesis in a glob reaches the regular expression as it
    is: between two literal strings, an opening parenthesis leaves a
    group that nothing closes and a closing one closes nothing; in both
    cases [new RegExp] throws, and so does [make]. *)
Theorem parenthesis_throws :
  forall a b : string,
    literal_string a = true -> literal_string b = true ->
    make (VString (a ++ "(" ++ b)) = Throws SyntaxError
    /\ make (VString (a ++ ")" ++ b)) = Throws SyntaxError.
Proof.
  intros a b Ha Hb. unfold make, FileGlob. fold (chars (a ++ "(" ++ b)).
  fold (chars (a ++ ")" ++ b)).
  rewrite (@FileGlob_pattern_around "(" a b Ha Hb eq_refl).
  rewrite (@FileGlob_pattern_around ")" a b Ha Hb eq_refl).
  unfold RegExp, parse. cbn [run].
  change (step pstate0 "^")
    with (Returns (PState MNormal (push_assertion frame0 AssertStart) [])).
  cbn [bind]. rewrite !run_app.
  destruct (@run_literal (chars a) (push_assertion frame0 AssertStart) [] Ha) as (f1 & ->).
  cbn [bind run]. split.
  - change (step (PState MNormal f1 []) "(")
      with (Returns (PState MGroupOpen frame0 [f1])).
    cbn [bind].
    destruct (@run_after_group_open (chars b) frame0 [f1] Hb) as (f2 & ->). reflexivity.
  - reflexivity.
Qed.

Lemma parenthesis_throws_witness :
  make (VString "file(1") = Throws SyntaxError
  /\ make (VString "file)1") = Throws SyntaxError.
Proof.
  exact (@parenthesis_throws "file" "1" eq_refl eq_refl).
Defined.

(** ** Sets of patterns, unions and complements *)

Section Algebra.

Lemma matches_FileGlobSetObj fglobs p :
  matches (FileGlobSetObj fglobs) p = existsb (fun o => matches o p) fglobs.
Proof. simpl. apply some_existsb. Qed.

Lemma matches_UnionObj sets p :
  matches (UnionObj sets) p = existsb (fun o => matches o p) sets.
Proof. simpl. apply some_existsb. Qed.

Lemma filter_spec o L : filter o L = List.filter (fun path => matches o path) L.
Proof.
  destruct o; simpl; try apply JsArray_filter_spec.
  symmetry. apply filter_nothing.
Qed.

Lemma existsb_Permutation {A : Type} (f : A -> bool) l l' :
  Permutation l l' -> existsb f l = existsb f l'.
Proof.
  induction 1 as [ | x l l' _ IH | x y l | l l' l'' _ IH1 _ IH2 ]; simpl.
  - reflexivity.
  - now rewrite IH.
  - now destruct (f x), (f y).
  - now rewrite IH1.
Qed.

(** The matchers of a list of globs, one by one, against the globs. *)
Lemma matchers_accept gs os p :
  Forall2 (fun g o => make (VString g) = Returns o) gs os ->
  existsb (fun o => matches o p) os = true <->
  exists g, In g gs /\ glob_matches g p = Returns true.
Proof.
  unfold glob_matches. induction 1 as [|g o gs os Hg _ IH]; cbn [existsb].
  - split; [discriminate | now intros (g & [] & _)].
  - rewrite orb_true_iff, IH. split.
    + intros [H | (g' & Hin & H)].
      * exists g. split; [now left|]. rewrite Hg. cbn [bind]. now rewrite H.
      * exists g'. split; [now right | assumption].
    + intros (g' & [<- | Hin] & H).
      * left. rewrite Hg in H. cbn [bind] in H. now injection H.
      * right. now exists g'.
Qed.

Lemma makeSet_strings_inv gs s :
  makeSet (strings gs) = Returns s ->
  exists os, s = FileGlobSetObj os
             /\ Forall2 (fun g o => make (VString g) = Returns o) gs os.
Proof.
  unfold strings, makeSet, FileGlobSet, JsArray.map, make. rewrite mapM_map.
  destruct (mapM _ gs) as [os| |] eqn:E; simpl; try discriminate.
  intros [= <-]. exists os. split; [reflexivity|]. now apply mapM_Forall2.
Qed.

Lemma makeSet_strings_accepts gs s p :
  makeSet (strings gs) = Returns s ->
  matches s p = true <-> exists g, In g gs /\ glob_matches g p = Returns true.
Proof.
  intros H. destruct (makeSet_strings_inv _ H) as (os & -> & F).
  rewrite matches_FileGlobSetObj. now apply matchers_accept.
Qed.

(** The loop of [makeUnion] appends the set of each argument, in order. *)
Lemma makeUnion_loop_mapM arguments :
  forall sets,
    makeUnion_loop arguments sets
    = (more <- mapM makeSet arguments ;; Returns (sets ++ more)).
Proof.
  induction arguments as [|a arguments IH]; intros sets; simpl.
  - now rewrite app_nil_r.
  - destruct (makeSet a) as [s| |]; simpl; try reflexivity.
    rewrite IH. destruct (mapM makeSet arguments); simpl; try reflexivity.
    now rewrite <- app_assoc.
Qed.

Lemma isaSet_set o :
  isaSet (VObject o) = true -> makeSet (VObject o) = Returns o.
Proof. intros H. unfold makeSet. now rewrite H. Qed.

End Algebra.

(** X8.  The set built from a list of globs accepts a path exactly when
    the matcher of one of the globs accepts it. *)
Theorem pattern_list_accepts_what_a_pattern_accepts :
  forall (gs : list string) (s : object),
    makeSet (strings gs) = Returns s ->
    forall p,
      matches s p = true <-> exists g, In g gs /\ glob_matches g p = Returns true.
Proof. intros gs s H p. now apply makeSet_strings_accepts. Qed.

Lemma pattern_list_accepts_what_a_pattern_accepts_witness :
  exists s,
    makeSet (strings ["*.js"; "*.json"]%string) = Returns s
    /\ (matches s "x.json" = true <->
        exists g, In g ["*.js"; "*.json"]%string
                  /\ glob_matches g "x.json" = Returns true).
Proof.
  eexists. split; [vm_compute; reflexivity|].
  apply pattern_list_accepts_what_a_pattern_accepts. vm_compute; reflexivity.
Defined.

(** X9.  [makeSet] on a list compiles the elements in order and stops at
    the first one that fails: the set is built exactly when every
    element compiles, and otherwise [makeSet] throws what the first
    failing element throws, whatever follows it. *)
Theorem first_failure_is_thrown :
  (forall (l1 : list value) (x : value) (l2 : list value) (e : exn),
      Forall (fun y => exists m, make y = Returns m) l1 ->
      make x = Throws e ->
      makeSet (VArray (l1 ++ x :: l2)) = Throws e)
  /\ (forall gs : list string,
         (exists s, makeSet (strings gs) = Returns s)
         <-> forall g, In g gs -> exists m, make (VString g) = Returns m).
Proof.
  split.
  - intros l1 x l2 e H1 Hx. unfold makeSet, FileGlobSet, JsArray.map.
    rewrite mapM_app. apply mapM_returns in H1. destruct H1 as (ys & Hys).
    change (mapM make l1) with (mapM (fun glob => FileGlob glob) l1) in Hys.
    rewrite Hys. unfold make in Hx. cbn [bind mapM]. now rewrite Hx.
  - intros gs. rewrite makeSet_strings_returns. apply Forall_forall.
Qed.

Lemma first_failure_is_thrown_witness :
  makeSet (VArray ([VString "*.js"] ++ VUndefined :: [VString "("])) = Throws TypeError
  /\ makeSet (VArray ([VString "*.js"] ++ VString "(" :: [VUndefined]))
     = Throws SyntaxError.
Proof.
  split.
  - apply (proj1 first_failure_is_thrown); [|reflexivity].
    repeat constructor. eexists. vm_compute. reflexivity.
  - apply (proj1 first_failure_is_thrown); [|vm_compute; reflexivity].
    repeat constructor. eexists. vm_compute. reflexivity.
Defined.

(** X10.  A single string given to [makeSet] is the list of that one
    glob, and the set behaves as the matcher [make] builds from it: the
    same answer on every path, the same throw when the glob does not
    compile. *)
Theorem makeSet_of_one_glob :
  forall g p : string,
    makeSet (VString g) = makeSet (strings [g])
    /\ accepts (makeSet (VString g)) p = glob_matches g p.
Proof.
  intros g p. split; [reflexivity|].
  unfold accepts, glob_matches, makeSet, FileGlobSet, JsArray.map, make.
  cbn [mapM].
  destruct (FileGlob (VString g)) as [m| |]; simpl; try reflexivity.
  now destruct (matches m p).
Qed.

(** X11.  The order of the globs of a set and of the sets of a union
    does not matter: two sets built from lists of globs that are
    permutations of each other accept the same paths, and so do two
    unions of the same sets in different orders. *)
Theorem order_does_not_matter :
  (forall (gs gs' : list string) (s s' : object),
      Permutation gs gs' ->
      makeSet (strings gs) = Returns s -> makeSet (strings gs') = Returns s' ->
      forall p, matches s p = matches s' p)
  /\ (forall sets sets' : list object,
         Permutation sets sets' ->
         forall p, matches (UnionObj sets) p = matches (UnionObj sets') p).
Proof.
  split.
  - intros gs gs' s s' P H H' p. apply eq_true_iff_eq.
    rewrite (makeSet_strings_accepts _ p H), (makeSet_strings_accepts _ p H').
    split; intros (g & Hin & Hg); exists g; split; auto.
    + eapply Permutation_in; eauto.
    + eapply Permutation_in; [apply Permutation_sym|]; eauto.
  - intros sets sets' P p. rewrite !matches_UnionObj. now apply existsb_Permutation.
Qed.

Lemma order_does_not_matter_witness :
  exists s s',
    makeSet (strings ["*.js"; "a/*"]%string) = Returns s
    /\ makeSet (strings ["a/*"; "*.js"]%string) = Returns s'
    /\ matches s "a/b" = matches s' "a/b".
Proof.
  eexists _, _. split; [vm_compute; reflexivity|].
  split; [vm_compute; reflexivity|].
  eapply (proj1 order_does_not_matter ["*.js"; "a/*"]%string ["a/*"; "*.js"]%string).
  - apply perm_swap.
  - vm_compute; reflexivity.
  - vm_compute; reflexivity.
Defined.

(** X12.  The union of two pattern lists behaves as the set of the two
    lists put end to end: the same answer on every path, and the same
    throw when an element of either list does not compile. *)
Theorem union_of_pattern_lists :
  forall (l1 l2 : list value) (p : string),
    accepts (makeUnion [VArray l1; VArray l2]) p
    = accepts (makeSet (VArray (l1 ++ l2))) p.
Proof.
  intros l1 l2 p.
  unfold accepts, makeUnion, Union. cbn [makeUnion_loop app].
  unfold makeSet, FileGlobSet, JsArray.map. rewrite mapM_app.
  destruct (mapM (fun glob => FileGlob glob) l1) as [os1| |]; cbn [bind];
    try reflexivity.
  destruct (mapM (fun glob => FileGlob glob) l2) as [os2| |]; cbn [bind app];
    try reflexivity.
  f_equal. rewrite matches_UnionObj, !matches_FileGlobSetObj, existsb_app.
  cbn [existsb]. rewrite !matches_FileGlobSetObj. now rewrite orb_false_r.
Qed.

(** X13.  [makeUnion] builds the set of each argument with [makeSet],
    in the order of the arguments, and the union accepts a path exactly
    when the set of one argument accepts it. *)
Theorem makeUnion_collects_its_arguments :
  forall arguments : list value,
    makeUnion arguments
    = (sets <- mapM makeSet arguments ;; Returns (UnionObj sets))
    /\ forall s, makeUnion arguments = Returns s ->
         forall p,
           matches s p = true <->
           exists a o, In a arguments /\ makeSet a = Returns o /\ matches o p = true.
Proof.
  intros arguments.
  assert (E : makeUnion arguments
              = (sets <- mapM makeSet arguments ;; Returns (UnionObj sets))).
  { unfold makeUnion, Union. rewrite makeUnion_loop_mapM.
    now destruct (mapM makeSet arguments). }
  split; [exact E|]. rewrite E. intros s H p.
  destruct (mapM makeSet arguments) as [sets| |] eqn:M; simpl in H; try discriminate.
  injection H as <-. apply mapM_Forall2 in M.
  rewrite matches_UnionObj. clear E.
  induction M as [|a o arguments sets Ha _ IH]; simpl.
  - split; [discriminate | now intros (a & o & [] & _)].
  - rewrite orb_true_iff, IH. split.
    + intros [H | (a' & o' & Hin & Ho & H)].
      * exists a, o. auto.
      * exists a', o'. auto.
    + intros (a' & o' & [<- | Hin] & Ho & H).
      * left. rewrite Ha in Ho. now injection Ho as <-.
      * right. now exists a', o'.
Qed.

Lemma makeUnion_collects_its_arguments_witness :
  exists s,
    makeUnion [strings ["*.js"]%string; VUndefined] = Returns s
    /\ (matches s "x.js" = true <->
        exists a o, In a [strings ["*.js"]%string; VUndefined]
                    /\ makeSet a = Returns o /\ matches o "x.js" = true).
Proof.
  eexists. split; [vm_compute; reflexivity|].
  apply (proj2 (makeUnion_collects_its_arguments
                  [strings ["*.js"]%string; VUndefined])).
  vm_compute. reflexivity.
Defined.

Section Filtering.

Lemma filter_twice {A : Type} (f g : A -> bool) l :
  List.filter g (List.filter f l) = List.filter (fun x => f x && g x) l.
Proof.
  induction l as [|x l IH]; simpl; [reflexivity|].
  destruct (f x); simpl; [|assumption]. destruct (g x); now rewrite IH.
Qed.

Lemma filter_same {A : Type} (f g : A -> bool) l :
  (forall x, f x = g x) -> List.filter f l = List.filter g l.
Proof.
  intros H. induction l as [|x l IH]; simpl; [reflexivity|]. now rewrite H, IH.
Qed.

End Filtering.

(** X14.  The complement built by [makeCompliment] is the difference of
    the two sets [makeSet] builds from its arguments: it accepts a path
    exactly when the first accepts it and the second does not, and
    filtering a list by it is filtering by the first and then removing
    what the second accepts. *)
Theorem complement_removes_the_excluded :
  forall (includes excludes : value) (s : object),
    makeCompliment includes excludes = Returns s ->
    exists si se,
      makeSet includes = Returns si
      /\ makeSet excludes = Returns se
      /\ (forall p, matches s p = true <-> matches si p = true /\ matches se p = false)
      /\ (forall L, filter s L
                    = List.filter (fun p => negb (matches se p)) (filter si L)).
Proof.
  intros includes excludes s H. unfold makeCompliment, Compliment in H.
  destruct (makeSet includes) as [si| |]; simpl in H; try discriminate.
  destruct (makeSet excludes) as [se| |]; simpl in H; try discriminate.
  injection H as <-. exists si, se. repeat split.
  - simpl in H. apply andb_true_iff in H. tauto.
  - simpl in H. apply andb_true_iff in H. destruct H as [_ H].
    now apply negb_true_iff in H.
  - intros [H1 H2]. simpl. now rewrite H1, H2.
  - intros L. rewrite !filter_spec, filter_twice. reflexivity.
Qed.

Lemma complement_removes_the_excluded_witness :
  exists s si se,
    makeCompliment (strings ["**/*.js"]%string) (strings ["**/test/*"]%string)
    = Returns s
    /\ makeSet (strings ["**/*.js"]%string) = Returns si
    /\ makeSet (strings ["**/test/*"]%string) = Returns se
    /\ (matches s "src/lib/a.js" = true <->
        matches si "src/lib/a.js" = true /\ matches se "src/lib/a.js" = false).
Proof.
  destruct (@complement_removes_the_excluded
              (strings ["**/*.js"]%string) (strings ["**/test/*"]%string)
              (ComplimentObj
                 (FileGlobSetObj [FileGlobObj (anchored (tokenize (chars "**/*.js")))])
                 (FileGlobSetObj [FileGlobObj (anchored (tokenize (chars "**/test/*")))])))
    as (si & se & Hi & He & Hm & _).
  - vm_compute. reflexivity.
  - eexists _, si, se. split; [vm_compute; reflexivity|].
    split; [exact Hi|]. split; [exact He|]. apply Hm.
Defined.

(** X15.  An absent argument of [makeCompliment] is the empty set:
    without excludes the complement behaves as the set of the includes,
    and without includes it accepts nothing. *)
Theorem absent_argument_is_the_empty_set :
  forall (x : value) (p : string),
    accepts (makeCompliment x VUndefined) p = accepts (makeSet x) p
    /\ accepts (makeCompliment VUndefined x) p = (s <- makeSet x ;; Returns false).
Proof.
  intros x p. unfold accepts, makeCompliment, Compliment. split.
  - destruct (makeSet x) as [s| |]; simpl; try reflexivity.
    now rewrite andb_true_r.
  - cbn [makeSet bind]. destruct (makeSet x) as [s| |]; reflexivity.
Qed.

(** X16.  Filtering by an object of the library works path by path:
    the filter of two lists put end to end is the two filters put end
    to end, filtering twice by the same object changes nothing more, and
    two filters can be applied in either order. *)
Theorem filters_compose :
  forall (o o' : object) (L1 L2 : list string),
    filter o (L1 ++ L2) = filter o L1 ++ filter o L2
    /\ filter o (filter o L1) = filter o L1
    /\ filter o (filter o' L1) = filter o' (filter o L1).
Proof.
  intros o o' L1 L2. rewrite !filter_spec. split; [apply filter_app|]. split.
  - rewrite filter_twice. apply filter_same. intros x. apply andb_diag.
  - rewrite !filter_twice. apply filter_same. intros x. apply andb_comm.
Qed.

(** X17.  What the factories return: [makeSet], [makeCompliment] and
    [makeUnion] only return instances of the library's [Set], which
    [makeSet] then returns unchanged; [make] never returns one, whatever
    it is given. *)
Theorem factories_return_sets :
  (forall x s, makeSet x = Returns s ->
               isaSet (VObject s) = true /\ makeSet (VObject s) = Returns s)
  /\ (forall i e s, makeCompliment i e = Returns s ->
                    isaSet (VObject s) = true /\ makeSet (VObject s) = Returns s)
  /\ (forall arguments s, makeUnion arguments = Returns s ->
                          isaSet (VObject s) = true /\ makeSet (VObject s) = Returns s)
  /\ (forall g m, make g = Returns m -> isaSet (VObject m) = false).
Proof.
  split; [|split; [|split]].
  - intros x s H. pose proof (makeSet_returns_set _ H) as K.
    split; [assumption | now apply isaSet_set].
  - intros i e s H. unfold makeCompliment, Compliment in H.
    destruct (makeSet i); simpl in H; try discriminate.
    destruct (makeSet e); simpl in H; try discriminate.
    now injection H as <-.
  - intros arguments s H. unfold makeUnion, Union in H.
    destruct (makeUnion_loop arguments []); simpl in H; try discriminate.
    now injection H as <-.
  - intros g m H. unfold make, FileGlob in H.
    destruct g; try discriminate;
      destruct (RegExp _); simpl in H; try discriminate; now injection H as <-.
Qed.

Lemma factories_return_sets_witness :
  exists s,
    makeCompliment (strings ["*.js"]%string) VUndefined = Returns s
    /\ isaSet (VObject s) = true
    /\ makeSet (VObject s) = Returns s.
Proof.
  eexists. split; [vm_compute; reflexivity|].
  apply (proj1 (proj2 factories_return_sets) (strings ["*.js"]%string) VUndefined).
  vm_compute. reflexivity.
Defined.

(** X18.  The factories take built sets as they are: [makeUnion] of sets
    already built is the union of exactly these sets, in order, and
    [makeCompliment] of two built sets is the complement of the two. *)
Theorem factories_take_built_sets :
  forall (sets : list object) (a b : object),
    Forall (fun o => isaSet (VObject o) = true) sets ->
    isaSet (VObject a) = true -> isaSet (VObject b) = true ->
    makeUnion (List.map VObject sets) = Returns (UnionObj sets)
    /\ makeCompliment (VObject a) (VObject b) = Returns (ComplimentObj a b).
Proof.
  intros sets a b Hs Ha Hb. split.
  - unfold makeUnion, Union. rewrite makeUnion_loop_mapM, mapM_map.
    assert (M : mapM (fun o => makeSet (VObject o)) sets = Returns sets).
    { apply mapM_Forall2. induction Hs; constructor; auto. now apply isaSet_set. }
    now rewrite M.
  - unfold makeCompliment, Compliment.
    now rewrite (isaSet_set _ Ha), (isaSet_set _ Hb).
Qed.

Lemma factories_take_built_sets_witness :
  makeUnion (List.map VObject [EmptySet; UnionObj []])
  = Returns (UnionObj [EmptySet; UnionObj []])
  /\ makeCompliment (VObject (UnionObj [])) (VObject EmptySet)
     = Returns (ComplimentObj (UnionObj []) EmptySet).
Proof.
  apply factories_take_built_sets; repeat constructor.
Defined.

(** X19.  The empty inputs.  The empty glob compiles to the pattern
    [^$], whose matcher accepts the empty path and no other; an object
    given to [make] has no [length] and is compiled as the empty glob;
    the empty list of globs gives a set that accepts nothing and whose
    filter keeps nothing. *)
Theorem empty_inputs :
  forall (o : object) (p : string) (L : list string),
    make (VObject o) = make (VString "")
    /\ (exists m, make (VString "") = Returns m
                  /\ (matches m p = true <-> p = ""%string))
    /\ (exists s, makeSet (VArray []) = Returns s
                  /\ matches s p = false /\ filter s L = []).
Proof.
  intros o p L. split; [reflexivity|]. split.
  - destruct (glob_matches_literal "" p eq_refl) as (b & E & I).
    unfold glob_matches in E.
    destruct (make (VString "")) as [m| |]; simpl in E; try discriminate.
    exists m. split; [reflexivity|]. injection E as <-. exact I.
  - eexists. split; [reflexivity|]. split; [reflexivity|].
    rewrite filter_spec. apply filter_nothing.
Qed.

(** ** A vertical bar in a glob *)

Section Alternation.

(** The tree [new RegExp] builds for [^a|b$], [a] and [b] literal. *)
Lemma parse_bar a b :
  forallb literal a = true -> forallb literal b = true ->
  parse ("^" :: a ++ ("|" :: b ++ ["$"]))
  = Returns
      (Alt (fold_left Seq (List.map token_regex (List.map TChar a))
              (Seq Empty AssertStart))
           (Seq (fold_left Seq (List.map token_regex (List.map TChar b)) Empty)
              AssertEnd)).
Proof.
  intros Ha Hb. unfold parse. cbn [run].
  change (step pstate0 "^")
    with (Returns (PState MNormal (push_assertion frame0 AssertStart) [])).
  cbn [bind]. rewrite run_app.
  destruct (run_tokens (push_assertion frame0 AssertStart) [] (literal_tokens_ok _ Ha))
    as (f1 & R1 & A1 & C1).
  rewrite text_of_chars in R1. rewrite R1. cbn [bind run].
  change (step (PState MNormal f1 []) "|")
    with (Returns (PState MNormal (close_alternative f1) [])).
  cbn [bind]. rewrite run_app.
  destruct (run_tokens (close_alternative f1) [] (literal_tokens_ok _ Hb))
    as (f2 & R2 & A2 & C2).
  rewrite text_of_chars in R2. rewrite R2. cbn [bind run].
  change (step (PState MNormal f2 []) "$")
    with (Returns (PState MNormal (push_assertion f2 AssertEnd) [])).
  cbn [bind]. unfold finish. cbn [pmode parents top].
  unfold frame_regex at 1. unfold push_assertion at 1. cbn [alts].
  rewrite A2. unfold close_alternative at 1. cbn [alts].
  unfold frame_regex. rewrite A1. cbn [push_assertion frame0 alts].
  unfold commit at 2. cbn [pend cur push_assertion]. rewrite C1, C2.
  reflexivity.
Qed.

Lemma Den_literal a x y :
  Den (fold_left Seq (List.map token_regex (List.map TChar a)) Empty) x y
  <-> reads x a y.
Proof.
  rewrite Den_tokens. split.
  - intros (y0 & u & H & R & G). inversion H; subst.
    apply GlobMatch_chars in G. now subst.
  - intros R. exists x, a. split; [constructor|]. split; [assumption|].
    now apply GlobMatch_chars.
Qed.

End Alternation.

(** X20.  A vertical bar in a glob reaches the regular expression as it
    is and splits the pattern in two, each half keeping one anchor only:
    between two literal strings [a] and [b], the matcher of [a|b]
    accepts the paths that start with [a] and the paths that end with
    [b]. *)
Theorem bar_splits_the_pattern :
  forall a b p : string,
    literal_string a = true -> literal_string b = true ->
    exists r,
      glob_matches (a ++ "|" ++ b) p = Returns r
      /\ (r = true <->
          (exists q, chars p = chars a ++ q) \/ (exists q, chars p = q ++ chars b)).
Proof.
  intros a b p Ha Hb. unfold glob_matches, make, FileGlob.
  fold (chars (a ++ "|" ++ b)).
  rewrite (@FileGlob_pattern_around "|" a b Ha Hb eq_refl).
  unfold RegExp. rewrite (parse_bar _ _ Ha Hb). cbn [bind matches].
  eexists. split; [reflexivity|]. fold (chars p).
  unfold test. rewrite search_spec. split.
  - intros (u & v & Ep & H). apply compile_spec in H. destruct H as (y & H & _).
    inversion H as [ | | | | | | | ? ? ? ? HL | ? ? ? ? HR | | | ]; subst.
    + left. apply Den_tokens in HL. destruct HL as (y0 & w & H0 & R & G).
      apply GlobMatch_chars in G. subst w.
      inversion H0 as [ | | | | | | ? ? ? ? ? H1 H2 | | | | | ]; subst.
      inversion H1; subst. inversion H2; subst.
      match goal with E : endIndex _ = 0 |- _ => simpl in E end.
      destruct u; [|discriminate]. destruct R as [E _]. simpl in E.
      exists (rest y). now rewrite Ep.
    + right. inversion HR as [ | | | | | | ? ? ? ? ? H1 H2 | | | | | ]; subst.
      apply Den_literal in H1. inversion H2; subst.
      destruct H1 as [E _]. simpl in E.
      match goal with N : rest y = [] |- _ => rewrite N, app_nil_r in E end.
      exists u. now rewrite Ep, E.
  - intros [(q & E) | (q & E)].
    + exists [], (chars p). split; [reflexivity|]. apply compile_spec.
      exists (MState (List.length (chars a)) q). split; [|reflexivity].
      apply DenAltL, Den_tokens. exists (MState 0 (chars p)), (chars a).
      split; [apply DenSeq with (y := MState 0 (chars p)); now constructor|].
      split; [split; simpl; [assumption | reflexivity] | now apply GlobMatch_chars].
    + exists q, (chars b). split; [assumption|]. apply compile_spec.
      exists (MState (0 + List.length q + List.length (chars b)) []).
      split; [|reflexivity].
      apply DenAltR. eapply DenSeq; [|now constructor].
      apply Den_literal. split; simpl; [now rewrite app_nil_r | reflexivity].
Qed.

Lemma bar_splits_the_pattern_witness :
  glob_matches "a|b" "ax" = Returns true
  /\ glob_matches "a|b" "xb" = Returns true
  /\ exists r, glob_matches "a|b" "a|b" = Returns r.
Proof.
  split; [|split].
  - destruct (@bar_splits_the_pattern "a" "b" "ax" eq_refl eq_refl) as (r & E & I).
    simpl in E. rewrite E. f_equal. apply I. left. now exists (chars "x").
  - destruct (@bar_splits_the_pattern "a" "b" "xb" eq_refl eq_refl) as (r & E & I).
    simpl in E. rewrite E. f_equal. apply I. right. now exists (chars "x").
  - destruct (@bar_splits_the_pattern "a" "b" "a|b" eq_refl eq_refl) as (r & E & _).
    now exists r.
Defined.

(** ** A plus sign in a glob *)

Section Repetition.

(** The tree [new RegExp] builds for [^ac+b$], [a], [c] and [b]
    literal. *)
Lemma parse_plus a c b :
  forallb literal a = true -> literal c = true -> forallb literal b = true ->
  parse ("^" :: a ++ (c :: "+" :: b ++ ["$"]))
  = Returns
      (Seq (fold_left Seq (List.map token_regex (List.map TChar b))
              (Seq (fold_left Seq (List.map token_regex (List.map TChar a))
                      (Seq Empty AssertStart))
                   (Quant 1 None true (Char c))))
           AssertEnd).
Proof.
  intros Ha Hc Hb. unfold parse. cbn [run].
  change (step pstate0 "^")
    with (Returns (PState MNormal (push_assertion frame0 AssertStart) [])).
  cbn [bind]. rewrite run_app.
  destruct (run_tokens (push_assertion frame0 AssertStart) [] (literal_tokens_ok _ Ha))
    as (f1 & R1 & A1 & C1).
  rewrite text_of_chars in R1. rewrite R1. cbn [bind run].
  unfold step at 1. cbn [pmode top parents].
  rewrite (step_normal_literal _ _ _ Hc). cbn [bind].
  change (step (PState MNormal (push_atom f1 (Char c)) []) "+")
    with (Returns (PState MNormal
                     (Frame (alts f1) (commit f1) (PQuant 1 None (Char c))) [])).
  cbn [bind]. rewrite run_app.
  destruct (run_tokens (Frame (alts f1) (commit f1) (PQuant 1 None (Char c))) []
              (literal_tokens_ok _ Hb)) as (f2 & R2 & A2 & C2).
  rewrite text_of_chars in R2. rewrite R2. cbn [bind run].
  change (step (PState MNormal f2 []) "$")
    with (Returns (PState MNormal (push_assertion f2 AssertEnd) [])).
  cbn [bind]. unfold finish. cbn [pmode parents top].
  unfold frame_regex, push_assertion. cbn [alts].
  rewrite A2. cbn [alts]. rewrite A1. cbn [push_assertion frame0 alts].
  unfold commit at 1. cbn [pend cur]. rewrite C2.
  unfold commit at 1. cbn [pend cur]. rewrite C1. reflexivity.
Qed.

Lemma Den_Char_word c x y :
  Den (Char c) x y <-> exists u, u = [c] /\ reads x u y.
Proof.
  rewrite Den_Char. split; [eauto | now intros (u & -> & R)].
Qed.

Lemma concat_same (c : ascii) (us : list (list ascii)) :
  Forall (fun u => u = [c]) us -> List.concat us = repeat c (List.length us).
Proof.
  induction 1 as [|u us -> _ IH]; simpl; [reflexivity | now rewrite IH].
Qed.

(** One or more times the same character. *)
Lemma Den_plus_Char c x y :
  Den (Quant 1 None true (Char c)) x y <-> exists n, reads x (repeat c (S n)) y.
Proof.
  split.
  - intros H.
    inversion H as [ | | | | | | | | |
                     | ? ? ? ? ? [N | N] | ? ? ? ? ? y1 ? _ H1 _ H2 ]; subst;
      try discriminate.
    apply Den_Char in H1. simpl in H2.
    apply (Den_star _ (Den_Char_word c)) in H2. destruct H2 as (us & Hus & R).
    exists (List.length us). rewrite (concat_same Hus) in R.
    change (repeat c (S (List.length us))) with ([c] ++ repeat c (List.length us)).
    eapply reads_app; eauto.
  - intros (n & R).
    change (repeat c (S n)) with ([c] ++ repeat c n) in R.
    apply reads_split in R. destruct R as (y1 & R1 & R2).
    eapply DenQuantIter with (y := y1).
    + discriminate.
    + now apply Den_Char.
    + discriminate.
    + simpl. apply (Den_star _ (Den_Char_word c)).
      exists (repeat [c] n). split.
      * apply Forall_forall. intros u Hu. now apply repeat_spec in Hu.
      * replace (List.concat (repeat [c] n)) with (repeat c n); [assumption|].
        clear. induction n; simpl; [reflexivity | now f_equal].
Qed.

End Repetition.

(** X21.  A plus sign in a glob reaches the regular expression as it is
    and repeats the character before it: between literal strings, the
    matcher of [ac+b] accepts [a], one or more [c], then [b], and
    nothing else; in particular not the path equal to the glob. *)
Theorem plus_repeats_the_character_before :
  forall (a b : string) (c : ascii) (p : string),
    literal_string a = true -> literal c = true -> literal_string b = true ->
    exists r,
      glob_matches (a ++ String c "" ++ "+" ++ b) p = Returns r
      /\ (r = true <->
          exists n, chars p = chars a ++ repeat c (S n) ++ chars b).
Proof.
  intros a b c p Ha Hc Hb. unfold glob_matches, make, FileGlob.
  assert (Hac : literal_string (a ++ String c "") = true).
  { unfold literal_string. rewrite chars_append, forallb_app.
    fold (literal_string a). rewrite Ha. simpl. now rewrite Hc. }
  assert (Ep : FileGlob_pattern (list_ascii_of_string (a ++ String c "" ++ "+" ++ b))
               = "^" :: chars a ++ (c :: "+" :: chars b ++ ["$"])).
  { pose proof (@FileGlob_pattern_around "+" (a ++ String c "") b Hac Hb eq_refl) as E.
    assert (As : ((a ++ String c "") ++ "+" ++ b)%string
                 = (a ++ String c "" ++ "+" ++ b)%string).
    { clear. induction a as [|x a IH]; [reflexivity|].
      change (String x ((a ++ String c "") ++ "+" ++ b)
              = String x (a ++ String c "" ++ "+" ++ b))%string.
      now rewrite IH. }
    rewrite As in E. unfold chars at 1 in E. rewrite E.
    rewrite chars_append, <- app_assoc. reflexivity. }
  rewrite Ep. unfold RegExp. rewrite (@parse_plus (chars a) c (chars b) Ha Hc Hb).
  cbn [bind matches].
  eexists. split; [reflexivity|]. fold (chars p).
  unfold test. rewrite search_spec. split.
  - intros (u & v & Es & H). apply compile_spec in H. destruct H as (y & H & _).
    inversion H as [ | | | | | | ? ? ? ? ? H1 H2 | | | | | ]; subst.
    inversion H2; subst.
    apply Den_tokens in H1. destruct H1 as (y1 & w & H1 & Rb & G).
    apply GlobMatch_chars in G. subst w.
    inversion H1 as [ | | | | | | ? ? ? ? ? H3 H4 | | | | | ]; subst.
    apply Den_plus_Char in H4. destruct H4 as (n & Rc).
    apply Den_tokens in H3. destruct H3 as (ya & wa & Hs & Ra & Ga).
    apply GlobMatch_chars in Ga. subst wa.
    inversion Hs as [ | | | | | | ? ? ? ? ? H5 H6 | | | | | ]; subst.
    inversion H5; subst. inversion H6; subst.
    match goal with E : endIndex _ = 0 |- _ => simpl in E end.
    destruct u; [|discriminate]. simpl in Es. subst v.
    pose proof (reads_app (reads_app Ra Rc) Rb) as [E _]. simpl in E.
    match goal with N : rest y = [] |- _ => rewrite N, app_nil_r in E end.
    exists n. now rewrite E, <- !app_assoc.
  - intros (n & E). exists [], (chars p). split; [reflexivity|]. apply compile_spec.
    set (x0 := MState 0 (chars p)).
    set (x1 := MState (List.length (chars a)) (repeat c (S n) ++ chars b)).
    set (x2 := MState (List.length (chars a) + List.length (repeat c (S n))) (chars b)).
    set (x3 := MState (List.length (chars a) + List.length (repeat c (S n))
                       + List.length (chars b)) []).
    exists x3. split; [|reflexivity].
    apply DenSeq with (y := x3); [|now constructor].
    apply Den_tokens. exists x2, (chars b).
    split; [|split; [split; simpl; [now rewrite app_nil_r | reflexivity]
                    | now apply GlobMatch_chars]].
    apply DenSeq with (y := x1).
    + apply Den_tokens. exists x0, (chars a).
      split; [apply DenSeq with (y := x0); now constructor|].
      split; [split; simpl; [assumption | reflexivity] | now apply GlobMatch_chars].
    + apply Den_plus_Char. exists n. split; reflexivity.
Qed.

Lemma plus_repeats_the_character_before_witness :
  glob_matches "a+b" "aaab" = Returns true
  /\ glob_matches "a+b" "a+b" = Returns false.
Proof.
  split.
  - destruct (@plus_repeats_the_character_before "" "b" "a" "aaab"
                eq_refl eq_refl eq_refl) as (r & E & I).
    simpl in E. rewrite E. f_equal. apply I. now exists 2.
  - destruct (@plus_repeats_the_character_before "" "b" "a" "a+b"
                eq_refl eq_refl eq_refl) as (r & E & I).
    simpl in E. rewrite E. f_equal. destruct r; [|reflexivity]. exfalso.
    destruct (proj1 I eq_refl) as (n & En). simpl in En.
    injection En as En. destruct n; simpl in En; discriminate En.
Defined.

(** ** The star tokens of a plain glob *)

Section Stars.

(** The matcher of a plain glob around a [*] that is not part of a
    [**/]. *)
Lemma glob_matches_around_star pre post p :
  plain (chars pre) = true -> plain (chars post) = true ->
  String.prefix "*/" post = false ->
  ends_with_star (chars pre) && String.prefix "/" post = false ->
  exists r,
    glob_matches (pre ++ "*" ++ post) p = Returns r
    /\ (r = true <->
        exists p1 u p2,
          chars p = chars p1 ++ u ++ chars p2
          /\ glob_matches pre p1 = Returns true
          /\ no_separator u
          /\ glob_matches post p2 = Returns true).
Proof.
  intros Hpre Hpost N1 N2.
  assert (Et : tokenize (chars (pre ++ "*" ++ post))
               = tokenize (chars pre) ++ TStar :: tokenize (chars post)).
  { rewrite !chars_append. apply tokenize_star_app.
    - now apply prefix_star_slash.
    - now rewrite prefix_slash_hd. }
  destruct (glob_matches_plain (pre ++ "*" ++ post) p) as (r & E & H).
  { rewrite !chars_append, !plain_app, Hpre, Hpost. reflexivity. }
  exists r. split; [assumption|].
  rewrite H, Et, GlobMatch_token_between. split.
  - intros (l1 & u & l2 & Ep & H1 & Hu & H2).
    exists (string_of_list_ascii l1), u, (string_of_list_ascii l2).
    rewrite !glob_matches_true_plain, !chars_of_list by assumption. auto.
  - intros (p1 & u & p2 & Ep & H1 & Hu & H2).
    rewrite glob_matches_true_plain in H1, H2 by assumption.
    exists (chars p1), u, (chars p2). auto.
Qed.

Lemma glob_matches_literal_true a p :
  literal_string a = true -> glob_matches a p = Returns true <-> p = a.
Proof.
  intros L. destruct (glob_matches_literal a p L) as (b & E & H).
  rewrite E, <- H. split; [now intros [= ->] | now intros ->].
Qed.

(** A string of literal characters neither starts nor ends with a
    star. *)
Lemma literal_prefix_star_slash b :
  literal_string b = true -> String.prefix "*/" b = false.
Proof.
  destruct b as [|c b]; [reflexivity|]. unfold literal_string.
  cbn [chars list_ascii_of_string forallb String.prefix].
  intros H. apply andb_true_iff in H. destruct H as [Hc _].
  assert (N : (c =? "*")%char = false).
  { apply (literal_not_syntax _ Hc). simpl. tauto. }
  destruct (ascii_dec "*" c) as [<- | _]; [discriminate N | reflexivity].
Qed.

Lemma literal_ends_with_star a :
  forallb literal a = true -> ends_with_star a = false.
Proof.
  induction a as [|c a IH]; [reflexivity|]. intros H.
  simpl in H. apply andb_true_iff in H. destruct H as [Hc Ha].
  destruct a as [|c' a].
  - simpl. apply (literal_not_syntax _ Hc). simpl. tauto.
  - rewrite ends_with_star_cons by discriminate. now apply IH.
Qed.

(** Segments end with the separator of the last one. *)
Lemma segments_last segs :
  segments segs = [] \/ exists l, segments segs = l ++ ["/"].
Proof.
  induction segs as [|s segs IH]; [now left|]. right.
  unfold segments. simpl. fold (segments segs).
  destruct IH as [-> | (l & ->)].
  - exists s. now rewrite app_nil_r.
  - exists ((s ++ ["/"]) ++ l). now rewrite app_assoc.
Qed.

Lemma segments_not_a_character c : c <> "/"%char -> forall segs, segments segs <> [c].
Proof.
  intros N segs E. destruct (segments_last segs) as [E' | (l & E')];
    rewrite E' in E; [discriminate|].
  change [c] with ([] ++ [c]) in E. apply app_inj_tail in E.
  destruct E as [_ E]. congruence.
Qed.

End Stars.



(** X23.  In a plain glob, a [*] that is not part of a [**/] (no [*/]
    follows it, and it does not follow a star with a separator after
    it) stands for any run of characters without separator, and for
    nothing else: the matcher accepts exactly the paths made of a path
    accepted by what precedes the star, such a run, and a path accepted
    by what follows it. *)
Theorem star_stays_within_a_segment :
  forall pre post : string,
    plain (chars pre) = true -> plain (chars post) = true ->
    String.prefix "*/" post = false ->
    ends_with_star (chars pre) && String.prefix "/" post = false ->
    forall p,
      exists r,
        glob_matches (pre ++ "*" ++ post) p = Returns r
        /\ (r = true <->
            exists p1 u p2,
              chars p = chars p1 ++ u ++ chars p2
              /\ glob_matches pre p1 = Returns true
              /\ no_separator u
              /\ glob_matches post p2 = Returns true).
Proof.
  intros pre post Hpre Hpost N1 N2 p. now apply glob_matches_around_star.
Qed.

Lemma star_stays_within_a_segment_witness :
  glob_matches "a/*" "a/b/c" = Returns false
  /\ glob_matches "a/*" "a/bc" = Returns true.
Proof.
  pose proof (star_stays_within_a_segment "a/" "" eq_refl eq_refl eq_refl eq_refl) as H.
  split.
  - destruct (H "a/b/c"%string) as (r & E & I).
    simpl in E. rewrite E. f_equal.
    destruct r; [|reflexivity]. exfalso.
    destruct (proj1 I eq_refl) as (p1 & u & p2 & Ep & H1 & Hu & H2).
    apply glob_matches_literal_true in H1; [|reflexivity].
    apply glob_matches_literal_true in H2; [|reflexivity].
    subst p1 p2.
    simpl in Ep. injection Ep as Ep. rewrite app_nil_r in Ep. subst u.
    apply Hu. simpl. tauto.
  - destruct (H "a/bc"%string) as (r & E & I).
    simpl in E. rewrite E. f_equal.
    apply I. exists "a/"%string, (chars "bc"), ""%string.
    split; [reflexivity|]. split; [vm_compute; reflexivity|].
    split; [|vm_compute; reflexivity].
    intros [C | [C | []]]; discriminate C.
Defined.

(** X24.  The segments a [**/] stands for may be empty: in a plain glob,
    between a path accepted by what precedes the token and a path
    accepted by what follows it, the matcher accepts any number of
    separators in a row. *)
Theorem globstar_matches_empty_segments :
  forall pre post p1 p2 : string,
    plain (chars pre) = true -> plain (chars post) = true ->
    glob_matches pre p1 = Returns true ->
    glob_matches post p2 = Returns true ->
    forall n,
      glob_matches (pre ++ "**/" ++ post) (p1 ++ slashes n ++ p2) = Returns true.
Proof.
  intros pre post p1 p2 Hpre Hpost H1 H2 n.
  destruct (glob_matches_around_globstar pre post (p1 ++ slashes n ++ p2) Hpre Hpost)
    as (r & E & I).
  rewrite E. f_equal. apply I. exists p1, (repeat [] n), p2.
  split; [|split; [assumption | split; [|assumption]]].
  - rewrite !chars_append, segments_empty. unfold slashes. now rewrite chars_of_list.
  - apply Forall_forall. intros seg Hs. apply repeat_spec in Hs. subst.
    apply no_separator_nil.
Qed.

Lemma globstar_matches_empty_segments_witness :
  glob_matches "*.d/**/b" "x.d///b" = Returns true.
Proof.
  change (glob_matches ("*.d/" ++ "**/" ++ "b") ("x.d/" ++ slashes 2 ++ "b") = Returns true).
  apply globstar_matches_empty_segments; vm_compute; reflexivity.
Defined.

(** X25.  Between two strings of literal characters, a [**/] stands for
    path segments, each followed by its separator: the matcher of the
    glob made of [a], [**/] and [b] accepts the paths made of [a], any
    number of segments without separator inside, each with a separator
    after it, and [b], and it accepts no other path.  There may be no
    segment and the segments may be empty: any number of separators in
    a row is accepted between [a] and [b]. *)
Theorem globstar_between_literal_strings :
  forall a b : string,
    literal_string a = true -> literal_string b = true ->
    (forall p,
        exists r,
          glob_matches (a ++ "**/" ++ b) p = Returns r
          /\ (r = true <->
              exists segs,
                Forall no_separator segs
                /\ chars p = chars a ++ segments segs ++ chars b))
    /\ (forall n,
           glob_matches (a ++ "**/" ++ b) (a ++ slashes n ++ b) = Returns true).
Proof.
  intros a b Ha Hb.
  assert (K : forall p,
             exists r,
               glob_matches (a ++ "**/" ++ b) p = Returns r
               /\ (r = true <->
                   exists segs,
                     Forall no_separator segs
                     /\ chars p = chars a ++ segments segs ++ chars b)).
  { intros p.
    destruct (glob_matches_around_globstar a b p (literal_plain _ Ha) (literal_plain _ Hb))
      as (r & E & I).
    exists r. split; [assumption|]. rewrite I. split.
    - intros (p1 & segs & p2 & Ep & H1 & Hs & H2).
      apply glob_matches_literal_true in H1; [|assumption].
      apply glob_matches_literal_true in H2; [|assumption].
      subst p1 p2. now exists segs.
    - intros (segs & Hs & Ep). exists a, segs, b.
      split; [assumption|].
      split; [now apply glob_matches_literal_true|].
      split; [assumption | now apply glob_matches_literal_true]. }
  split; [exact K|]. intros n.
  destruct (K (a ++ slashes n ++ b)%string) as (r & E & I).
  rewrite E. f_equal. apply I. exists (repeat [] n). split.
  - apply Forall_forall. intros seg Hs. apply repeat_spec in Hs. subst.
    apply no_separator_nil.
  - rewrite !chars_append, segments_empty. unfold slashes. now rewrite chars_of_list.
Qed.

Lemma globstar_between_literal_strings_witness :
  glob_matches "a/**/b" "a/b" = Returns true
  /\ glob_matches "a/**/b" "a/x/y/b" = Returns true
  /\ glob_matches "a/**/b" "a//b" = Returns true
  /\ glob_matches "a/**/b" "a/xb" = Returns false
  /\ glob_matches "a/**/b" "b" = Returns false.
Proof.
  pose proof (globstar_between_literal_strings "a/" "b" eq_refl eq_refl) as [H N].
  split; [|split; [|split; [|split]]].
  - exact (N 0).
  - destruct (H "a/x/y/b"%string) as (r & E & I). simpl in E. rewrite E. f_equal.
    apply I. exists [chars "x"; chars "y"]. split; [|reflexivity].
    repeat constructor; intros [C | []]; discriminate C.
  - exact (N 1).
  - destruct (H "a/xb"%string) as (r & E & I). simpl in E. rewrite E. f_equal.
    destruct r; [|reflexivity]. exfalso.
    destruct (proj1 I eq_refl) as (segs & _ & Ep).
    simpl in Ep. injection Ep as Ep.
    change ["x"; "b"] with (["x"] ++ ["b"]) in Ep.
    apply app_inj_tail in Ep. destruct Ep as [Ep _].
    symmetry in Ep. revert Ep. apply segments_not_a_character. discriminate.
  - destruct (H "b"%string) as (r & E & I). simpl in E. rewrite E. f_equal.
    destruct r; [|reflexivity]. exfalso.
    destruct (proj1 I eq_refl) as (segs & _ & Ep). discriminate Ep.
Defined.

(** X26.  Between two strings of literal characters, a [*] stands for
    a run of characters without separator: the matcher of the glob made
    of [a], [*] and [b] accepts the paths made of [a], any number of
    characters other than the separator, and [b], and it accepts no
    other path. *)
Theorem star_between_literal_strings :
  forall a b : string,
    literal_string a = true -> literal_string b = true ->
    forall p,
      exists r,
        glob_matches (a ++ "*" ++ b) p = Returns r
        /\ (r = true <->
            exists u, no_separator u /\ chars p = chars a ++ u ++ chars b).
Proof.
  intros a b Ha Hb p.
  destruct (glob_matches_around_star a b p (literal_plain _ Ha) (literal_plain _ Hb))
    as (r & E & I).
  { now apply literal_prefix_star_slash. }
  { unfold literal_string in Ha. now rewrite (literal_ends_with_star _ Ha). }
  exists r. split; [assumption|]. rewrite I. split.
  - intros (p1 & u & p2 & Ep & H1 & Hu & H2).
    apply glob_matches_literal_true in H1; [|assumption].
    apply glob_matches_literal_true in H2; [|assumption].
    subst p1 p2. now exists u.
  - intros (u & Hu & Ep). exists a, u, b.
    split; [assumption|].
    split; [now apply glob_matches_literal_true|].
    split; [assumption | now apply glob_matches_literal_true].
Qed.

Lemma star_between_literal_strings_witness :
  glob_matches "a/*" "a/bc" = Returns true
  /\ glob_matches "a/*" "a/" = Returns true
  /\ glob_matches "a/*" "a/b/c" = Returns false
  /\ glob_matches "a/*" "b/c" = Returns false.
Proof.
  pose proof (star_between_literal_strings "a/" "" eq_refl eq_refl) as H.
  split; [|split; [|split]].
  - destruct (H "a/bc"%string) as (r & E & I). simpl in E. rewrite E. f_equal.
    apply I. exists (chars "bc"). split; [|reflexivity].
    intros [C | [C | []]]; discriminate C.
  - destruct (H "a/"%string) as (r & E & I). simpl in E. rewrite E. f_equal.
    apply I. exists []. split; [apply no_separator_nil | reflexivity].
  - destruct (H "a/b/c"%string) as (r & E & I). simpl in E. rewrite E. f_equal.
    destruct r; [|reflexivity]. exfalso.
    destruct (proj1 I eq_refl) as (u & Hu & Ep).
    simpl in Ep. injection Ep as Ep. rewrite app_nil_r in Ep. subst u.
    apply Hu. simpl. tauto.
  - destruct (H "b/c"%string) as (r & E & I). simpl in E. rewrite E. f_equal.
    destruct r; [|reflexivity]. exfalso.
    destruct (proj1 I eq_refl) as (u & _ & Ep). discriminate Ep.
Defined.
